(** * qcrew-snail: SNAIL potential expansion and the Kerr parameter sweep

    A shallow embedding of [snail_solver/elements.py] (classes [SNAIL] and
    [SNAIL2]) and of the driver script [optimize_parameters_coupling.py].

    Numbers.  NumPy's binary64 values are idealised as the real numbers of
    the Standard Library: [np.cos] is [cos], [np.pi] is [PI], array
    arithmetic is pointwise arithmetic on lists.  Rounding is not modelled
    there.  The sources divide by [n], by constants and by products with
    the fitted coefficient [a2]; they are written with the division of
    the reals, which is the code's quotient where the divisor is not zero.
    Where it is zero NumPy returns [inf] or [nan]: [SNAIL2.inductance]
    records that as [np.non_finite], and the statements about the [Ej] of
    [SNAIL.solve_expansion] assume a divisor that is not zero.  Where a
    statement turns on rounding, the lines concerned are embedded a second
    time over the kernel's binary64 numbers (module [driver64]).

    Scalars.  The attributes of an instance ([Lj], [Ej], [n], [alpha],
    [phi_ext]) are taken to be Python numbers, so that
    [Ej * taylor_potential] is [poly1d.__rmul__] and returns a [poly1d].

    Library calls.  [scipy.optimize.minimize],
    [scipy.interpolate.approximate_taylor_polynomial] and the helpers
    imported from [snail_solver.helper_functions] are not part of the
    sources; they are fields of the class [Externals] below.  The quantum
    toolbox behind the driver (assembly and diagonalisation of the coupled
    circuit) is the class [driver.Toolbox]. *)

From Corelib Require Import PrimFloat.
From Stdlib Require Import Reals Lra Lia List ZArith Bool.
Import ListNotations.
Local Open Scope R_scope.

(** ** Python built-ins *)

Module py.

(** [min(iterable)]: the first smallest item; [None] stands for the
    [ValueError] raised on an empty iterable. *)
Definition min (l : list R) : option R :=
  match l with
  | [] => None
  | x :: t => Some (fold_left (fun acc y => if Rlt_dec y acc then y else acc) t x)
  end.

(** [sum(iterable)], accumulating from 0. *)
Definition sum (l : list R) : R := fold_left Rplus l 0.

(** [range(n)] for a possibly negative integer [n]. *)
Definition range (n : Z) : list nat := seq 0 (Z.to_nat n).

(** [x ** e] for an integer exponent. *)
Definition pow (x : R) (e : Z) : R := powerRZ x e.

End py.

(** ** The part of NumPy the sources use *)

Module np.

Definition ceil (x : R) : Z := (1 - up (- x))%Z.

(** [np.arange(start, stop, step)]: [ceil((stop - start) / step)] items
    [start + i * step]. *)
Definition arange (start stop step : R) : list R :=
  map (fun i => start + INR i * step)
      (seq 0 (Z.to_nat (ceil ((stop - start) / step)))).

(** *** [np.poly1d]: coefficients in decreasing powers, leading zeros
    removed by the constructor. *)
Record poly := Poly { coeffs : list R }.

Fixpoint trim_zeros (c : list R) : list R :=
  match c with
  | [] => []
  | a :: t => if Req_dec_T a 0 then trim_zeros t else c
  end.

Definition poly1d (c : list R) : poly :=
  match trim_zeros c with
  | [] => Poly [0]
  | c' => Poly c'
  end.

Definition order (p : poly) : Z := Z.of_nat (length (coeffs p)) - 1.

(** [len(p)] is the order of the polynomial. *)
Definition len (p : poly) : Z := order p.

(** [p[val]]: the coefficient of the power [val], 0 outside [0..order]. *)
Definition getitem (p : poly) (val : Z) : R :=
  let ind := (order p - val)%Z in
  if (val >? order p)%Z then 0
  else if (val <? 0)%Z then 0
  else nth (Z.to_nat ind) (coeffs p) 0.

(** The coefficient of the power [k] in an array of decreasing powers
    that has not been trimmed. *)
Definition coefficient (c : list R) (k : Z) : R := getitem (Poly c) k.

(** [p(x)], Horner's scheme of [np.polyval]. *)
Definition polyval (p : poly) (x : R) : R :=
  fold_left (fun y pv => y * x + pv) (coeffs p) 0.

(** [a * p] for a Python scalar [a]: [poly1d.__rmul__]. *)
Definition scalar_mul (a : R) (p : poly) : poly :=
  poly1d (map (fun c => a * c) (coeffs p)).

(** Slices [a[1:]] and [a[:-1]]. *)
Definition from1 (a : list R) : list R := tl a.
Definition to_last (a : list R) : list R := removelast a.

(** Element-wise difference of two arrays of equal length. *)
Definition sub (a b : list R) : list R :=
  map (fun ab => fst ab - snd ab) (combine a b).

(** [np.average(a)]. *)
Definition average (a : list R) : R :=
  fold_right Rplus 0 a / INR (length a).

(** [np.max(a)]; [None] stands for the [ValueError] on an empty array. *)
Definition max (a : list R) : option R :=
  match a with
  | [] => None
  | x :: t => Some (fold_left Rmax t x)
  end.

Definition abs (a : list R) : list R := map Rabs a.

(** *** Quotients by a computed divisor

    The value of [a / b] for a [np.float64] divisor [b]: the quotient of
    the reals when [b] is not zero, and [inf], [-inf] or [nan] when it is
    (NumPy warns and does not raise). *)
Inductive float64 := finite (x : R) | non_finite.

Definition true_divide (a b : R) : float64 :=
  if Req_dec_T b 0 then non_finite else finite (a / b).

(** [q * c]: a product with [inf] or [nan] is [inf], [-inf] or [nan]. *)
Definition multiply (q : float64) (c : R) : float64 :=
  match q with
  | finite x => finite (x * c)
  | non_finite => non_finite
  end.

(** [np.reshape(a, (r, c))] in row-major order; [None] stands for the
    [ValueError] raised when the sizes do not match. *)
Definition reshape (a : list R) (dim : nat * nat) : option (list (list R)) :=
  let (r, c) := dim in
  if (length a =? r * c)%nat
  then Some (map (fun i => firstn c (skipn (i * c) a)) (seq 0 r))
  else None.

End np.

(** ** External routines *)

Class Externals := {
  (** constants of [snail_solver.helper_functions] *)
  hbar : R;
  flux_quantum : R;
  (** [more_than_2_roots(f, x_min, x_max)] of [snail_solver.helper_functions] *)
  more_than_2_roots : (R -> R) -> R -> R -> bool;
  (** [scipy.optimize.minimize(f, x0).x[0]] *)
  minimize : (R -> R) -> R -> R;
  (** The coefficient array, in decreasing powers, that
      [approximate_taylor_polynomial(f, x, degree, scale, order)] hands to
      [np.poly1d]; it has [degree + 1] entries. *)
  taylor_coefficients : (R -> R) -> R -> nat -> R -> nat -> list R;
  taylor_coefficients_length :
    forall f x degree scale order,
      length (taylor_coefficients f x degree scale order) = S degree
}.

(** [scipy.interpolate.approximate_taylor_polynomial]: the [poly1d] of
    the fitted coefficients. *)
Definition approximate_taylor_polynomial `{Externals}
    (f : R -> R) (x : R) (degree : nat) (scale : R) (order : nat)
  : np.poly :=
  np.poly1d (taylor_coefficients f x degree scale order).

(** [order if order else degree + 10] ([None] and [0] are falsy).  Orders
    and degrees are natural numbers: a negative one, on which the fit
    raises, is outside the model. *)
Definition order_or_default (order : option nat) (degree : nat) : nat :=
  match order with
  | Some (S o) => S o
  | _ => degree + 10
  end.

Definition default_degree : nat := 40.
Definition default_scale : R := 9 * PI.

(** ** [class SNAIL] *)

Module SNAIL.

Record t := mk { Lj : R; n : R; alpha : R; phi_ext : R }.

Section methods.
Context `{Externals}.
Variable self : t.

Definition potential (phi : R) : R :=
  let pot_branch1 := - alpha self * cos phi in
  let pot_branch2 := - n self * cos ((phi_ext self - phi) / n self) in
  pot_branch1 + pot_branch2.

(** The value bound to [phi_min_0], the starting point of [minimize]. *)
Definition phi_array : list R :=
  np.arange (- PI * n self) (PI * n self) 0.01.

Definition phi_min_0 : option R := py.min (map potential phi_array).

Definition solve_expansion (degree : nat) (scale : R) (order : option nat)
  : option (R * R * np.poly) :=
  let order := order_or_default order degree in
  match phi_min_0 with
  | None => None
  | Some phi_min_0 =>
      let phi_min := minimize potential phi_min_0 in
      let taylor_potential :=
        approximate_taylor_polynomial potential phi_min degree scale order in
      let a2 := np.getitem taylor_potential 2 in
      let Ej := 1 / 2 / (2 * PI * hbar * Lj self * a2)
                * (flux_quantum / 2 / PI) ^ 2 in
      Some (phi_min, Ej, taylor_potential)
  end.

Definition truncated_potential (degree : nat) (scale : R) (order : option nat)
    (norm shift nonlinear : bool)
  : option ((R -> R) * R * R) :=
  match solve_expansion degree scale order with
  | None => None
  | Some (phi_0, Ej, taylor_potential) =>
      let phi_0 := if shift then phi_0 else 0 in
      let limit := if nonlinear then 3%Z else 0%Z in
      let a3 := np.getitem taylor_potential 3 in
      let a4 := np.getitem taylor_potential 4 in
      let potential := fun x : R =>
        py.sum (map (fun k : nat =>
                  (if norm then 1 else Ej)
                  * np.getitem taylor_potential (Z.of_nat degree - Z.of_nat k)
                  * py.pow (x - phi_0) (Z.of_nat degree - Z.of_nat k))
                (py.range (np.len taylor_potential + 1 - limit))) in
      Some (potential, a3, a4)
  end.

Definition potential_derivative (phi : R) : R :=
  let pot_branch1_derivative := alpha self * sin phi in
  let pot_branch2_derivative := - sin ((phi_ext self - phi) / n self) in
  pot_branch1_derivative + pot_branch2_derivative.

(** The interval handed to [more_than_2_roots]. *)
Definition wells_window : R * R := (0, n self * 2 * PI).

Definition has_multiple_wells : bool :=
  more_than_2_roots potential_derivative (fst wells_window) (snd wells_window).

End methods.

End SNAIL.

(** ** [class SNAIL2] *)

Module SNAIL2.

Record t := mk { Ej : R; n : R; alpha : R; phi_ext : R }.

Section methods.
Context `{Externals}.
Variable self : t.

Definition potential (phi : R) (norm : bool) : R :=
  let pot_branch1 := - alpha self * cos phi in
  let pot_branch2 := - n self * cos ((phi_ext self - phi) / n self) in
  if norm then pot_branch1 + pot_branch2
  else Ej self * (pot_branch1 + pot_branch2).

Definition phi_array : list R :=
  np.arange (- PI * n self) (PI * n self) 0.01.

(** [self.potential] passed as a function uses the default [norm=True]. *)
Definition phi_min_0 : option R :=
  py.min (map (fun phi => potential phi true) phi_array).

Definition solve_expansion (degree : nat) (scale : R) (order : option nat)
    (norm : bool)
  : option (R * np.poly) :=
  let order := order_or_default order degree in
  match phi_min_0 with
  | None => None
  | Some phi_min_0 =>
      let phi_min := minimize (fun phi => potential phi true) phi_min_0 in
      let taylor_potential :=
        approximate_taylor_polynomial
          (fun phi => potential phi true) phi_min degree scale order in
      let Ej := if norm then 1 else Ej self in
      Some (phi_min, np.scalar_mul Ej taylor_potential)
  end.

Definition inductance (degree : nat) : option np.float64 :=
  match solve_expansion degree default_scale None false with
  | None => None
  | Some (_, taylor_expansion) =>
      let a2 := np.getitem taylor_expansion 2 in
      let Lj := np.multiply (np.true_divide (1 / 2) (2 * PI * hbar * a2))
                            ((flux_quantum / 2 / PI) ^ 2) in
      Some Lj
  end.

Definition truncated_potential (degree : nat) (scale : R) (order : option nat)
    (norm shift nonlinear : bool)
  : option ((R -> R) * R * R) :=
  match solve_expansion degree scale order norm with
  | None => None
  | Some (phi_0, taylor_potential) =>
      let phi_0 := if shift then phi_0 else 0 in
      let limit := if nonlinear then 3%Z else 0%Z in
      let a3 := np.getitem taylor_potential 3 in
      let a4 := np.getitem taylor_potential 4 in
      let potential := fun x : R =>
        py.sum (map (fun k : nat =>
                  np.getitem taylor_potential (Z.of_nat degree - Z.of_nat k)
                  * py.pow (x - phi_0) (Z.of_nat degree - Z.of_nat k))
                (py.range (np.len taylor_potential + 1 - limit))) in
      Some (potential, a3, a4)
  end.

Definition potential_derivative (phi : R) (norm : bool) : R :=
  let pot_branch1_derivative := alpha self * sin phi in
  let pot_branch2_derivative := - sin ((phi_ext self - phi) / n self) in
  let Ej := if norm then 1 else Ej self in
  Ej * (pot_branch1_derivative + pot_branch2_derivative).

Definition wells_window : R * R := (0, n self * 2 * PI).

Definition has_multiple_wells : bool :=
  more_than_2_roots (fun phi => potential_derivative phi true)
                    (fst wells_window) (snd wells_window).

End methods.

End SNAIL2.


(** [x] is a flux of the grid at which the sampled values of [f] are
    smallest; this is what an initial guess for the minimum has to be. *)
Definition grid_argmin (f : R -> R) (grid : list R) (x : R) : Prop :=
  In x grid /\ forall y, In y grid -> f x <= f y.



(** ** The driver [optimize_parameters_coupling.py] *)

(** Eigenvalues may be complex; the script takes [np.real] of them. *)
Record complex := Cplx { re : R; im : R }.

Definition Csub (a b : complex) : complex :=
  Cplx (re a - re b) (im a - im b).

Module driver.

(** The arguments from which one sweep iteration assembles its circuit:
    [Circuit(Ancilla(SNAIL.from_Lj(Lj, n, alpha, phi_ext),
    freqs[np.argmax(PHI_zpf)], fock_trunc=fock_trunc), freqs, PHI_zpf)]. *)
Record circuit := Circuit {
  c_Lj : R; c_n : R; c_alpha : R; c_phi_ext : R;
  c_fock_trunc : nat; c_freqs : list R; c_PHI_zpf : list (list R)
}.

(** The quantum toolbox ([snail_solver.circuit], qutip) is not part of the
    sources: [get_eigenstate c i] is [circuit.get_eigenstate({1: i})[0]]
    after the spectrum of [c] has been calculated. *)
Class Toolbox := { get_eigenstate : circuit -> nat -> complex }.

(** The fixed inputs of a sweep. *)
Record inputs := Inputs {
  n : R; Lj : R; fock_trunc : nat;
  freqs : list R; PHI_zpf : list (list R);
  alpha_list : list R; phi_ext_list : list R
}.

(** The values the script assigns. *)
Definition script_inputs : inputs := {|
  n := 3;
  Lj := 25e-9;
  fock_trunc := 18;
  freqs := [5.104723e9; 7.465660e9];
  PHI_zpf := [[0.62331647]; [0.01441409]];
  alpha_list := np.arange 0.2 0.4 0.01;
  phi_ext_list := np.arange (0.2 * 2 * PI) (0.491 * 2 * PI) (0.01 * 2 * PI)
|}.

(** The two accumulators of the script. *)
Record state := State {
  cavity_kerr_list : list R;
  max_kerr_list : list R
}.

Definition initial : state := State [] [].

Section sweep.
Context `{Toolbox}.
Variable inp : inputs.

Definition assemble (alpha phi_ext : R) : circuit :=
  Circuit (Lj inp) (n inp) alpha phi_ext (fock_trunc inp) (freqs inp) (PHI_zpf inp).

Definition cavity_evals (alpha phi_ext : R) : list complex :=
  map (get_eigenstate (assemble alpha phi_ext))
      (py.range (Z.of_nat (fock_trunc inp) - 3)).

(** [np.real(cavity_evals - cavity_evals[0]) / 1e6]; [None] stands for the
    [IndexError] of [cavity_evals[0]] on an empty list.  Over the reals the
    division is exact; [driver64.relative_evals] is the rounded one. *)
Definition relative_evals (evals : list complex) : option (list R) :=
  match evals with
  | [] => None
  | e0 :: _ => Some (map (fun e => re (Csub e e0) / 1e6) evals)
  end.

Definition transit_energies (relative_evals : list R) : list R :=
  np.sub (np.from1 relative_evals) (np.to_last relative_evals).

Definition anharm (relative_evals : list R) : list R :=
  let transit_energies := transit_energies relative_evals in
  np.sub (np.from1 transit_energies) (np.to_last transit_energies).

(** [(avg_kerr, max_kerr)] of one iteration. *)
Definition kerr (alpha phi_ext : R) : option (R * R) :=
  match relative_evals (cavity_evals alpha phi_ext) with
  | None => None
  | Some relative_evals =>
      let anharm := anharm relative_evals in
      let avg_kerr := 1000 * np.average anharm in
      match np.max (np.abs anharm) with
      | None => None
      | Some m => Some (avg_kerr, 1000 * m)
      end
  end.

(** The pair an iteration reports; [(0, 0)] stands in where it raises. *)
Definition reported (alpha phi_ext : R) : R * R :=
  match kerr alpha phi_ext with
  | Some p => p
  | None => (0, 0)
  end.

(** The body of the inner loop: one [append] to each accumulator. *)
Definition body (alpha phi_ext : R) (st : state) : option state :=
  match kerr alpha phi_ext with
  | None => None
  | Some (avg_kerr, max_kerr) =>
      Some (State (cavity_kerr_list st ++ [avg_kerr])
                  (max_kerr_list st ++ [max_kerr]))
  end.

Fixpoint inner_loop (alpha : R) (phis : list R) (st : state) : option state :=
  match phis with
  | [] => Some st
  | phi_ext :: rest =>
      match body alpha phi_ext st with
      | None => None
      | Some st' => inner_loop alpha rest st'
      end
  end.

Fixpoint outer_loop (alphas : list R) (st : state) : option state :=
  match alphas with
  | [] => Some st
  | alpha :: rest =>
      match inner_loop alpha (phi_ext_list inp) st with
      | None => None
      | Some st' => outer_loop rest st'
      end
  end.

Definition sweep : option state := outer_loop (alpha_list inp) initial.

(** After the loops: [phi_ext_list /= 2 * np.pi], then both accumulators
    are reshaped to [(len(alpha_list), len(phi_ext_list))]. *)
Definition reshape_dim : nat * nat :=
  let phi_ext_list := map (fun p => p / (2 * PI)) (phi_ext_list inp) in
  (length (alpha_list inp), length phi_ext_list).

Definition grids : option (list (list R) * list (list R)) :=
  match sweep with
  | None => None
  | Some st =>
      match np.reshape (cavity_kerr_list st) reshape_dim with
      | None => None
      | Some cavity_kerr_grid =>
          match np.reshape (max_kerr_list st) reshape_dim with
          | None => None
          | Some max_kerr_grid => Some (cavity_kerr_grid, max_kerr_grid)
          end
      end
  end.

End sweep.

End driver.


(** ** The Kerr lines of the driver in binary64

    Lines 41 to 43 and 45 of the script on NumPy's own numbers: [float] is
    the kernel's binary64 with rounding to nearest even, the subtraction
    of complex arrays is componentwise, [np.real], [np.abs] and [np.max]
    are exact.  [np.average] of line 44 is left out, its value depends on
    the order in which NumPy adds. *)

Module driver64.

Record complex128 := C128 { re : float; im : float }.

Definition Csub (a b : complex128) : complex128 :=
  C128 (re a - re b)%float (im a - im b)%float.

(** [np.real(cavity_evals - cavity_evals[0]) / 1e6] *)
Definition relative_evals (evals : list complex128) : option (list float) :=
  match evals with
  | [] => None
  | e0 :: _ => Some (map (fun e => (re (Csub e e0) / 1e6)%float) evals)
  end.

Definition sub (a b : list float) : list float :=
  map (fun ab => (fst ab - snd ab)%float) (combine a b).

Definition transit_energies (relative_evals : list float) : list float :=
  sub (tl relative_evals) (removelast relative_evals).

Definition anharm (relative_evals : list float) : list float :=
  let transit_energies := transit_energies relative_evals in
  sub (tl transit_energies) (removelast transit_energies).

(** [np.maximum]: the larger operand, and the first one if it is [nan]. *)
Definition maximum (x y : float) : float :=
  if PrimFloat.leb y x || negb (PrimFloat.eqb x x) then x else y.

Definition max (a : list float) : option float :=
  match a with
  | [] => None
  | x :: t => Some (fold_left maximum t x)
  end.

(** [1000 * np.max(np.abs(anharm))] *)
Definition max_kerr (cavity_evals : list complex128) : option float :=
  match relative_evals cavity_evals with
  | None => None
  | Some relative_evals =>
      let anharm := anharm relative_evals in
      match max (map PrimFloat.abs anharm) with
      | None => None
      | Some m => Some (1000 * m)%float
      end
  end.

End driver64.


(** ** The levels one iteration reads

    Names for the quantities of one iteration of the sweep, used in the
    statements about the driver: the level [i] of the cavity, the number of
    levels read, the level relative to the lowest in MHz, and the list of
    second differences of the relative levels. *)

Definition level `{driver.Toolbox} (inp : driver.inputs) (alpha phi_ext : R)
    (i : nat) : complex :=
  driver.get_eigenstate (driver.assemble inp alpha phi_ext) i.

Definition levels_read (inp : driver.inputs) : nat :=
  (driver.fock_trunc inp - 3)%nat.

Definition relative_level `{driver.Toolbox} (inp : driver.inputs)
    (alpha phi_ext : R) (i : nat) : R :=
  re (Csub (level inp alpha phi_ext i) (level inp alpha phi_ext 0)) / 1e6.

Definition second_differences `{driver.Toolbox} (inp : driver.inputs)
    (alpha phi_ext : R) : list R :=
  map (fun i => (relative_level inp alpha phi_ext (S (S i))
                 - relative_level inp alpha phi_ext (S i))
                - (relative_level inp alpha phi_ext (S i)
                   - relative_level inp alpha phi_ext i))
      (seq 0 (levels_read inp - 2)).

(** ** Stand-ins for the external routines

    Concrete instances on which the theorems below are exercised: a
    minimizer that returns its starting point, and a fit whose coefficients
    are all 1. *)

Definition sample_externals : Externals := {|
  hbar := 1.054571817e-34;
  flux_quantum := 2.067833848e-15;
  more_than_2_roots := fun _ _ _ => false;
  minimize := fun _ x0 => x0;
  taylor_coefficients := fun _ _ degree _ _ => repeat 1 (S degree);
  taylor_coefficients_length := fun _ _ degree _ _ => repeat_length 1 (S degree)
|}.

(** The fit through the two points [x + scale] and [x], which is what
    the interpolation computes for [order = 1]: a slope, the value [f x],
    and exact zeros for every higher power. *)
Definition secant_fit (f : R -> R) (x : R) (degree : nat) (scale : R) : list R :=
  match degree with
  | O => [f x]
  | S d => repeat 0 d ++ [(f (x + scale) - f x) / scale; f x]
  end.

Lemma secant_fit_length (f : R -> R) (x : R) (degree : nat) (scale : R) :
  length (secant_fit f x degree scale) = S degree.
Proof.
  destruct degree as [| d]; [reflexivity |].
  unfold secant_fit. rewrite length_app, repeat_length. simpl. lia.
Qed.

(** A library for a potential whose minimum is at 0: the minimizer returns
    0 and the fit is [secant_fit]. *)
Definition secant_externals : Externals := {|
  hbar := 1.054571817e-34;
  flux_quantum := 2.067833848e-15;
  more_than_2_roots := fun _ _ _ => false;
  minimize := fun _ _ => 0;
  taylor_coefficients := fun f x degree scale _ => secant_fit f x degree scale;
  taylor_coefficients_length := fun f x degree scale _ =>
    secant_fit_length f x degree scale
|}.

(** A toolbox whose cavity levels are equally spaced by [d]. *)
Definition harmonic_toolbox (d : R) : driver.Toolbox :=
  {| driver.get_eigenstate := fun _ i => Cplx (INR i * d) 0 |}.

(** A toolbox with the levels of a Kerr oscillator of frequency [f] and
    Kerr shift [K] per excitation: [E i = i f + K i (i - 1) / 2]. *)
Definition kerr_oscillator_toolbox (f K : R) : driver.Toolbox :=
  {| driver.get_eigenstate :=
       fun _ i => Cplx (INR i * f + K * INR i * (INR i - 1) / 2) 0 |}.


(** A sweep over two alphas and one flux. *)
Definition small_inputs : driver.inputs := {|
  driver.n := 3;
  driver.Lj := 25e-9;
  driver.fock_trunc := 18;
  driver.freqs := [5.104723e9; 7.465660e9];
  driver.PHI_zpf := [[0.62331647]; [0.01441409]];
  driver.alpha_list := [0.2; 0.3];
  driver.phi_ext_list := [1.3]
|}.


(** * Properties *)

(** ** The closed-form potential *)

Section potential_facts.

Variable self : SNAIL.t.

Lemma branch2_argument_derivative (phi : R) :
  derivable_pt_lim (fun x => (SNAIL.phi_ext self - x) / SNAIL.n self) phi
                   (- / SNAIL.n self).
Proof.
  replace (- / SNAIL.n self) with ((0 - 1) / SNAIL.n self) by (unfold Rdiv; ring).
  apply (derivable_pt_lim_div_scal
           (fun x => SNAIL.phi_ext self - x) phi (0 - 1) (SNAIL.n self)).
  apply (derivable_pt_lim_minus (fun _ => SNAIL.phi_ext self) (fun x => x)).
  - apply derivable_pt_lim_const.
  - apply derivable_pt_lim_id.
Qed.

Lemma branch2_derivative (phi : R) :
  derivable_pt_lim
    (fun x => - SNAIL.n self * cos ((SNAIL.phi_ext self - x) / SNAIL.n self)) phi
    (- sin ((SNAIL.phi_ext self - phi) / SNAIL.n self)).
Proof.
  set (u := fun x => (SNAIL.phi_ext self - x) / SNAIL.n self).
  assert (Hcomp : derivable_pt_lim (comp cos u) phi (- sin (u phi) * - / SNAIL.n self)).
  { apply derivable_pt_lim_comp.
    - apply branch2_argument_derivative.
    - apply derivable_pt_lim_cos. }
  destruct (Req_dec (SNAIL.n self) 0) as [Hn | Hn].
  - (* the branch vanishes identically *)
    assert (Hz : forall x, u x = 0).
    { intro x; unfold u; rewrite Hn; unfold Rdiv; rewrite Rinv_0; ring. }
    replace (- sin ((SNAIL.phi_ext self - phi) / SNAIL.n self)) with
      (- SNAIL.n self * (- sin (u phi) * - / SNAIL.n self)).
    + apply (derivable_pt_lim_scal (comp cos u)); exact Hcomp.
    + fold (u phi). rewrite Hz, Hn, sin_0. ring.
  - replace (- sin ((SNAIL.phi_ext self - phi) / SNAIL.n self)) with
      (- SNAIL.n self * (- sin (u phi) * - / SNAIL.n self)).
    + apply (derivable_pt_lim_scal (comp cos u)); exact Hcomp.
    + fold (u phi). field. exact Hn.
Qed.

Lemma branch1_derivative (phi : R) :
  derivable_pt_lim (fun x => - SNAIL.alpha self * cos x) phi
                   (SNAIL.alpha self * sin phi).
Proof.
  replace (SNAIL.alpha self * sin phi) with (- SNAIL.alpha self * - sin phi) by ring.
  apply (derivable_pt_lim_scal cos); apply derivable_pt_lim_cos.
Qed.

End potential_facts.

(** C5: the potential of every [SNAIL] is the two-branch cosine form, its
    [potential_derivative] is the stated sine form, and the latter is the
    derivative of the former at every real [phi]. *)
Theorem SNAIL_potential_and_derivative (self : SNAIL.t) (phi : R) :
  SNAIL.potential self phi
  = - SNAIL.alpha self * cos phi
    - SNAIL.n self * cos ((SNAIL.phi_ext self - phi) / SNAIL.n self)
  /\ SNAIL.potential_derivative self phi
     = SNAIL.alpha self * sin phi
       - sin ((SNAIL.phi_ext self - phi) / SNAIL.n self)
  /\ derivable_pt_lim (SNAIL.potential self) phi
                      (SNAIL.potential_derivative self phi).
Proof.
  split; [ | split ].
  - unfold SNAIL.potential; cbv zeta; ring.
  - unfold SNAIL.potential_derivative; cbv zeta; ring.
  - unfold SNAIL.potential, SNAIL.potential_derivative; cbv zeta.
    apply (derivable_pt_lim_plus
             (fun x => - SNAIL.alpha self * cos x)
             (fun x => - SNAIL.n self
                       * cos ((SNAIL.phi_ext self - x) / SNAIL.n self))).
    + apply branch1_derivative.
    + apply branch2_derivative.
Qed.

(** C9: for equal [n], [alpha], [phi_ext] the two classes agree on the
    normalised potential and derivative, and [norm=False] multiplies the
    normalised value by [Ej]. *)
Theorem SNAIL_SNAIL2_agree (Lj Ej n alpha phi_ext phi : R) :
  let s := SNAIL.mk Lj n alpha phi_ext in
  let s2 := SNAIL2.mk Ej n alpha phi_ext in
  SNAIL.potential s phi = SNAIL2.potential s2 phi true
  /\ SNAIL.potential_derivative s phi = SNAIL2.potential_derivative s2 phi true
  /\ SNAIL2.potential s2 phi false = Ej * SNAIL2.potential s2 phi true
  /\ SNAIL2.potential_derivative s2 phi false
     = Ej * SNAIL2.potential_derivative s2 phi true.
Proof.
  cbv zeta.
  unfold SNAIL.potential, SNAIL2.potential,
    SNAIL.potential_derivative, SNAIL2.potential_derivative; simpl.
  repeat split; ring.
Qed.

(** ** Periodicity *)

Lemma cos_minus_2PI (x : R) : cos (x - 2 * PI) = cos x.
Proof.
  rewrite <- (cos_period (x - 2 * PI) 1). simpl INR.
  f_equal. ring.
Qed.

Lemma cos_plus_2PI_Z (x : R) (k : Z) : cos (x + 2 * PI * IZR k) = cos x.
Proof.
  destruct (Z.le_gt_cases 0 k) as [Hk | Hk].
  - rewrite <- (Z2Nat.id k Hk), <- INR_IZR_INZ.
    rewrite <- (cos_period x (Z.to_nat k)). f_equal. ring.
  - assert (Hk' : (0 <= - k)%Z) by lia.
    rewrite <- (cos_period (x + 2 * PI * IZR k) (Z.to_nat (- k))).
    rewrite INR_IZR_INZ, (Z2Nat.id _ Hk'), opp_IZR. f_equal. ring.
Qed.

Lemma potential_shift_period (self : SNAIL.t) (k : Z) (phi : R) :
  (k <> 0)%Z ->
  SNAIL.n self = IZR k ->
  SNAIL.potential self (phi + 2 * PI * SNAIL.n self) = SNAIL.potential self phi.
Proof.
  intros Hk Hn. unfold SNAIL.potential; cbv zeta. rewrite Hn.
  assert (Hk0 : IZR k <> 0) by (apply not_0_IZR; exact Hk).
  rewrite cos_plus_2PI_Z.
  replace ((SNAIL.phi_ext self - (phi + 2 * PI * IZR k)) / IZR k)
    with ((SNAIL.phi_ext self - phi) / IZR k - 2 * PI) by (field; exact Hk0).
  rewrite cos_minus_2PI. reflexivity.
Qed.

(** C10: for an integer [n >= 1] the potential has period [2 * pi * n],
    and the window of [has_multiple_wells] starts at 0 and has exactly that
    width. *)
Theorem SNAIL_potential_periodic (self : SNAIL.t) (k : Z) :
  (1 <= k)%Z ->
  SNAIL.n self = IZR k ->
  (forall phi : R,
      SNAIL.potential self (phi + 2 * PI * SNAIL.n self)
      = SNAIL.potential self phi)
  /\ SNAIL.wells_window self = (0, 0 + 2 * PI * SNAIL.n self).
Proof.
  intros Hk Hn. split.
  - intro phi. apply (potential_shift_period self k); [lia | exact Hn].
  - unfold SNAIL.wells_window. f_equal. ring.
Qed.

(** The script's [n = 3]. *)
Lemma SNAIL_potential_periodic_witness :
  let self := SNAIL.mk 25e-9 3 0.2 1 in
  (forall phi : R,
      SNAIL.potential self (phi + 2 * PI * SNAIL.n self)
      = SNAIL.potential self phi)
  /\ SNAIL.wells_window self = (0, 0 + 2 * PI * SNAIL.n self).
Proof.
  apply (SNAIL_potential_periodic (SNAIL.mk 25e-9 3 0.2 1) 3).
  - lia.
  - reflexivity.
Defined.

(** ** [np.arange] and [min] *)

Lemma ceil_spec (x : R) : IZR (np.ceil x) - 1 < x <= IZR (np.ceil x).
Proof.
  unfold np.ceil. destruct (archimed (- x)) as [Hgt Hle].
  rewrite minus_IZR. lra.
Qed.

Lemma arange_length (start stop step : R) :
  length (np.arange start stop step)
  = Z.to_nat (np.ceil ((stop - start) / step)).
Proof. unfold np.arange. rewrite length_map, length_seq. reflexivity. Qed.

Lemma arange_length_gt (start stop step : R) (k : nat) :
  INR k < (stop - start) / step ->
  (k < length (np.arange start stop step))%nat.
Proof.
  intro Hk. rewrite arange_length.
  destruct (ceil_spec ((stop - start) / step)) as [_ Hle].
  assert (Hlt : IZR (Z.of_nat k) < IZR (np.ceil ((stop - start) / step))).
  { rewrite <- INR_IZR_INZ. lra. }
  apply lt_IZR in Hlt. lia.
Qed.

Lemma arange_nth (start stop step d : R) (k : nat) :
  (k < length (np.arange start stop step))%nat ->
  nth k (np.arange start stop step) d = start + INR k * step.
Proof.
  intro Hk. rewrite arange_length in Hk. unfold np.arange.
  rewrite (nth_indep _ d (start + INR 0 * step))
    by (rewrite length_map, length_seq; exact Hk).
  rewrite (map_nth (fun i => start + INR i * step)), seq_nth by exact Hk.
  reflexivity.
Qed.

Lemma fold_min_le_init (t : list R) (x : R) :
  fold_left (fun acc y => if Rlt_dec y acc then y else acc) t x <= x.
Proof.
  revert x. induction t as [| y t IH]; intro x; simpl.
  - lra.
  - destruct (Rlt_dec y x) as [Hlt | Hge].
    + specialize (IH y). lra.
    + apply IH.
Qed.

Lemma fold_min_lower (t : list R) (x y : R) :
  In y t -> fold_left (fun acc z => if Rlt_dec z acc then z else acc) t x <= y.
Proof.
  revert x. induction t as [| z t IH]; intros x Hin; simpl.
  - contradiction.
  - destruct Hin as [-> | Hin].
    + destruct (Rlt_dec y x) as [Hlt | Hge].
      * apply fold_min_le_init.
      * pose proof (fold_min_le_init t x). lra.
    + apply IH, Hin.
Qed.

Lemma fold_min_in (t : list R) (x : R) :
  In (fold_left (fun acc z => if Rlt_dec z acc then z else acc) t x) (x :: t).
Proof.
  revert x. induction t as [| z t IH]; intro x; simpl.
  - left; reflexivity.
  - destruct (Rlt_dec z x).
    + right. apply IH.
    + destruct (IH x) as [Heq | Hin]; [left | right; right]; assumption.
Qed.

(** [min] returns an item of the list that bounds every item from below. *)
Lemma py_min_spec (l : list R) (m : R) :
  py.min l = Some m -> In m l /\ forall y, In y l -> m <= y.
Proof.
  destruct l as [| x t]; simpl; [discriminate |].
  intro Hm; injection Hm as <-. split.
  - apply fold_min_in.
  - intros y [<- | Hin].
    + apply fold_min_le_init.
    + apply fold_min_lower, Hin.
Qed.

Lemma py_min_nonempty (l : list R) :
  l <> [] -> exists m, py.min l = Some m.
Proof. destruct l; [congruence | intros _; eexists; reflexivity]. Qed.

(** ** Coefficient access on [np.poly1d] *)

Lemma coefficient_zero_head (a : R) (t : list R) (k : Z) :
  a = 0 -> t <> [] -> np.coefficient (a :: t) k = np.coefficient t k.
Proof.
  intros Ha Ht. unfold np.coefficient, np.getitem, np.order; simpl np.coeffs.
  assert (Hlen : (0 < length t)%nat) by (destruct t; [congruence | simpl; lia]).
  change (length (a :: t)) with (S (length t)).
  destruct (Z.gtb_spec k (Z.of_nat (S (length t)) - 1)) as [H1 | H1];
    destruct (Z.gtb_spec k (Z.of_nat (length t) - 1)) as [H2 | H2];
    try lia; try reflexivity.
  - destruct (Z.ltb_spec k 0) as [H3 | H3]; [reflexivity |].
    replace (Z.of_nat (S (length t)) - 1 - k)%Z with 0%Z by lia.
    simpl. exact Ha.
  - destruct (Z.ltb_spec k 0) as [H3 | H3]; [reflexivity |].
    replace (Z.to_nat (Z.of_nat (S (length t)) - 1 - k))
      with (S (Z.to_nat (Z.of_nat (length t) - 1 - k))) by lia.
    reflexivity.
Qed.

Lemma coefficient_single_zero (k : Z) : np.coefficient [0] k = 0.
Proof.
  unfold np.coefficient, np.getitem, np.order; simpl.
  destruct (k >? 0)%Z eqn:H1; [reflexivity |].
  destruct (k <? 0)%Z eqn:H2; [reflexivity |].
  replace k with 0%Z by lia. reflexivity.
Qed.

Lemma coefficient_nil (k : Z) : np.coefficient [] k = 0.
Proof.
  unfold np.coefficient, np.getitem, np.order; simpl np.coeffs.
  destruct (k >? _)%Z; [reflexivity |].
  destruct (k <? 0)%Z; [reflexivity |].
  destruct (Z.to_nat _); reflexivity.
Qed.

(** Removing leading zeros does not change any np.coefficient. *)
Lemma getitem_poly1d (c : list R) (k : Z) :
  np.getitem (np.poly1d c) k = np.coefficient c k.
Proof.
  unfold np.poly1d. induction c as [| a t IH]; simpl.
  - fold (np.coefficient [0] k). rewrite coefficient_single_zero, coefficient_nil.
    reflexivity.
  - destruct (Req_dec_T a 0) as [Ha | Ha]; [| reflexivity].
    rewrite IH. destruct t as [| b t'].
    + rewrite coefficient_nil, Ha, coefficient_single_zero. reflexivity.
    + symmetry. apply coefficient_zero_head; [exact Ha | discriminate].
Qed.

Lemma coefficient_map_scal (a : R) (c : list R) (k : Z) :
  np.coefficient (map (fun x => a * x) c) k = a * np.coefficient c k.
Proof.
  unfold np.coefficient, np.getitem, np.order; simpl np.coeffs.
  rewrite length_map.
  destruct (k >? Z.of_nat (length c) - 1)%Z; [ring |].
  destruct (k <? 0)%Z; [ring |].
  rewrite <- (Rmult_0_r a) at 1.
  apply (map_nth (fun x => a * x)).
Qed.

Lemma getitem_scalar_mul (a : R) (p : np.poly) (k : Z) :
  np.getitem (np.scalar_mul a p) k = a * np.getitem p k.
Proof.
  unfold np.scalar_mul. rewrite getitem_poly1d, coefficient_map_scal.
  destruct p; reflexivity.
Qed.

(** ** The inductance of [SNAIL2] *)

Lemma phi_grid_nonempty (n : R) :
  0 < n -> np.arange (- PI * n) (PI * n) 0.01 <> [].
Proof.
  intros Hn Hnil.
  assert (Hlen : (0 < length (np.arange (- PI * n) (PI * n) 0.01))%nat).
  { apply arange_length_gt. simpl INR.
    pose proof PI_RGT_0 as Hpi.
    replace ((PI * n - - PI * n) / 0.01) with (200 * (PI * n)) by lra.
    apply Rmult_lt_0_compat; [lra | apply Rmult_lt_0_compat; assumption]. }
  rewrite Hnil in Hlen. simpl in Hlen. lia.
Qed.

Lemma SNAIL2_phi_min_0_defined (self : SNAIL2.t) :
  0 < SNAIL2.n self -> exists x0, SNAIL2.phi_min_0 self = Some x0.
Proof.
  intro Hn. apply py_min_nonempty. unfold SNAIL2.phi_array.
  pose proof (phi_grid_nonempty _ Hn) as Hne.
  destruct (np.arange _ _ _); [congruence | discriminate].
Qed.

(** ** Finite differences, [np.average] and [np.max] *)

Lemma transit_energies_cons (x y : R) (t : list R) :
  driver.transit_energies (x :: y :: t)
  = (y - x) :: driver.transit_energies (y :: t).
Proof. reflexivity. Qed.

Lemma transit_energies_single (x : R) : driver.transit_energies [x] = [].
Proof. reflexivity. Qed.

Lemma transit_energies_length (l : list R) :
  length (driver.transit_energies l) = pred (length l).
Proof.
  destruct l as [| x t]; [reflexivity |].
  revert x. induction t as [| y t IH]; intro x; [reflexivity |].
  rewrite transit_energies_cons. simpl length. rewrite IH. reflexivity.
Qed.

Lemma anharm_length (l : list R) :
  length (driver.anharm l) = (length l - 2)%nat.
Proof.
  unfold driver.anharm; cbv zeta.
  change (np.sub (np.from1 (driver.transit_energies l))
                 (np.to_last (driver.transit_energies l)))
    with (driver.transit_energies (driver.transit_energies l)).
  rewrite !transit_energies_length. lia.
Qed.

Lemma fold_Rmax_ge_init (t : list R) (x : R) : x <= fold_left Rmax t x.
Proof.
  revert x. induction t as [| y t IH]; intro x; simpl.
  - lra.
  - specialize (IH (Rmax x y)). pose proof (Rmax_l x y). lra.
Qed.

Lemma fold_Rmax_upper (t : list R) (x y : R) :
  In y t -> y <= fold_left Rmax t x.
Proof.
  revert x. induction t as [| z t IH]; intros x Hin; simpl.
  - contradiction.
  - destruct Hin as [-> | Hin].
    + pose proof (fold_Rmax_ge_init t (Rmax x y)).
      pose proof (Rmax_r x y). lra.
    + apply IH, Hin.
Qed.

Lemma fold_Rmax_in (t : list R) (x : R) : In (fold_left Rmax t x) (x :: t).
Proof.
  revert x. induction t as [| z t IH]; intro x; simpl.
  - left; reflexivity.
  - destruct (IH (Rmax x z)) as [Heq | Hin].
    + unfold Rmax in Heq at 1. destruct (Rle_dec x z).
      * right; left; exact Heq.
      * left; exact Heq.
    + right; right; exact Hin.
Qed.

(** [np.max] returns an item of the array that bounds every item. *)
Lemma np_max_spec (a : list R) (m : R) :
  np.max a = Some m -> In m a /\ forall y, In y a -> y <= m.
Proof.
  destruct a as [| x t]; simpl; [discriminate |].
  intro Hm; injection Hm as <-. split.
  - apply fold_Rmax_in.
  - intros y [<- | Hin].
    + apply fold_Rmax_ge_init.
    + apply fold_Rmax_upper, Hin.
Qed.

Lemma sum_abs_bound (a : list R) (m : R) :
  (forall y, In y (np.abs a) -> y <= m) ->
  Rabs (fold_right Rplus 0 a) <= INR (length a) * m.
Proof.
  induction a as [| x t IH]; intro Hb.
  - simpl. rewrite Rabs_R0. lra.
  - change (fold_right Rplus 0 (x :: t)) with (x + fold_right Rplus 0 t).
    change (length (x :: t)) with (S (length t)). rewrite S_INR.
    assert (Hx : Rabs x <= m) by (apply Hb; left; reflexivity).
    assert (Ht : Rabs (fold_right Rplus 0 t) <= INR (length t) * m).
    { apply IH. intros y Hy. apply Hb. right; exact Hy. }
    pose proof (Rabs_triang x (fold_right Rplus 0 t)). lra.
Qed.

(** The largest absolute value bounds the absolute value of the mean. *)
Lemma max_abs_bounds_average (a : list R) (m : R) :
  np.max (np.abs a) = Some m -> 0 <= m /\ Rabs (np.average a) <= m.
Proof.
  intro Hm. destruct (np_max_spec _ _ Hm) as [Hin Hub].
  assert (Hm0 : 0 <= m).
  { unfold np.abs in Hin. apply in_map_iff in Hin.
    destruct Hin as [x [<- _]]. apply Rabs_pos. }
  split; [exact Hm0 |].
  destruct a as [| x t]; [discriminate |].
  pose proof (sum_abs_bound (x :: t) m Hub) as Hs.
  unfold np.average.
  assert (Hlen : 0 < INR (length (x :: t))) by (apply lt_0_INR; simpl; lia).
  unfold Rdiv. rewrite Rabs_mult, (Rabs_right (/ _)).
  - apply (Rmult_le_reg_r (INR (length (x :: t)))); [exact Hlen |].
    rewrite Rmult_assoc, Rinv_l by lra. lra.
  - apply Rle_ge, Rlt_le, Rinv_0_lt_compat, Hlen.
Qed.

(** One iteration returns a pair as soon as there are three levels. *)
Lemma kerr_defined `{driver.Toolbox} (inp : driver.inputs) (alpha phi_ext : R) :
  (6 <= driver.fock_trunc inp)%nat ->
  exists avg_kerr max_kerr,
    driver.kerr inp alpha phi_ext = Some (avg_kerr, max_kerr).
Proof.
  intro Hft. unfold driver.kerr.
  assert (Hlen : length (driver.cavity_evals inp alpha phi_ext)
                 = (driver.fock_trunc inp - 3)%nat).
  { unfold driver.cavity_evals, py.range. rewrite length_map, length_seq. lia. }
  destruct (driver.cavity_evals inp alpha phi_ext) as [| e0 evals] eqn:Hev.
  - simpl in Hlen. lia.
  - unfold driver.relative_evals.
    set (rel := map (fun e => re (Csub e e0) / 1e6) (e0 :: evals)).
    assert (Hrel : length rel = (driver.fock_trunc inp - 3)%nat).
    { unfold rel. rewrite length_map. exact Hlen. }
    pose proof (anharm_length rel) as Han. rewrite Hrel in Han.
    destruct (driver.anharm rel) as [| a0 an] eqn:Ha.
    + simpl length in Han. lia.
    + simpl. eexists _, _. reflexivity.
Qed.

(** C8: at every iteration of the script's sweep a pair is reported, its
    maximum Kerr is non-negative and bounds the absolute value of its
    average Kerr. *)
Theorem max_kerr_dominates_avg_kerr `{driver.Toolbox} (alpha phi_ext : R) :
  exists avg_kerr max_kerr,
    driver.kerr driver.script_inputs alpha phi_ext = Some (avg_kerr, max_kerr)
    /\ max_kerr >= 0
    /\ max_kerr >= Rabs avg_kerr.
Proof.
  destruct (kerr_defined driver.script_inputs alpha phi_ext)
    as [avg [mx Hk]]; [simpl; lia |].
  exists avg, mx. split; [exact Hk |].
  unfold driver.kerr in Hk.
  destruct (driver.relative_evals _) as [rel |]; [| discriminate].
  cbv zeta in Hk.
  destruct (np.max (np.abs (driver.anharm rel))) as [m |] eqn:Hm; [| discriminate].
  injection Hk as <- <-.
  destruct (max_abs_bounds_average _ _ Hm) as [Hm0 Havg].
  rewrite Rabs_mult, (Rabs_right 1000) by lra.
  split; lra.
Qed.

(** ** The Kerr values of one iteration *)








(** ** The sweep *)

Section sweep_facts.

Context `{driver.Toolbox}.
Variable inp : driver.inputs.
Hypothesis enough_levels : (6 <= driver.fock_trunc inp)%nat.

Lemma kerr_reported (alpha phi_ext : R) :
  driver.kerr inp alpha phi_ext = Some (driver.reported inp alpha phi_ext).
Proof.
  unfold driver.reported.
  destruct (kerr_defined inp alpha phi_ext enough_levels) as [a [m ->]].
  reflexivity.
Qed.

Lemma body_appends (alpha phi_ext : R) (st : driver.state) :
  driver.body inp alpha phi_ext st
  = Some (driver.State
            (driver.cavity_kerr_list st
               ++ [fst (driver.reported inp alpha phi_ext)])
            (driver.max_kerr_list st
               ++ [snd (driver.reported inp alpha phi_ext)])).
Proof.
  unfold driver.body. rewrite kerr_reported.
  destruct (driver.reported inp alpha phi_ext); reflexivity.
Qed.

Lemma inner_loop_appends (alpha : R) (phis : list R) (st : driver.state) :
  driver.inner_loop inp alpha phis st
  = Some (driver.State
            (driver.cavity_kerr_list st
               ++ map (fun p => fst (driver.reported inp alpha p)) phis)
            (driver.max_kerr_list st
               ++ map (fun p => snd (driver.reported inp alpha p)) phis)).
Proof.
  revert st. induction phis as [| p phis IH]; intro st.
  - simpl. rewrite !app_nil_r. destruct st; reflexivity.
  - cbn [driver.inner_loop]. rewrite body_appends, IH.
    cbn [driver.cavity_kerr_list driver.max_kerr_list map].
    rewrite <- !app_assoc. reflexivity.
Qed.

Lemma outer_loop_appends (alphas : list R) (st : driver.state) :
  driver.outer_loop inp alphas st
  = Some (driver.State
            (driver.cavity_kerr_list st
               ++ concat (map (fun a => map (fun p => fst (driver.reported inp a p))
                                            (driver.phi_ext_list inp)) alphas))
            (driver.max_kerr_list st
               ++ concat (map (fun a => map (fun p => snd (driver.reported inp a p))
                                            (driver.phi_ext_list inp)) alphas))).
Proof.
  revert st. induction alphas as [| a alphas IH]; intro st.
  - simpl. rewrite !app_nil_r. destruct st; reflexivity.
  - cbn [driver.outer_loop]. rewrite inner_loop_appends, IH.
    cbn [driver.cavity_kerr_list driver.max_kerr_list map concat].
    rewrite <- !app_assoc. reflexivity.
Qed.

End sweep_facts.

(** Row-major reshaping of a concatenation of rows of equal length gives
    the rows back. *)
Lemma reshape_concat (rows : list (list R)) (c : nat) :
  Forall (fun row => length row = c) rows ->
  np.reshape (concat rows) (length rows, c) = Some rows.
Proof.
  intro Hrows. unfold np.reshape.
  assert (Hlen : length (concat rows) = (length rows * c)%nat).
  { induction Hrows as [| row rows Hrow _ IH]; [reflexivity |].
    simpl. rewrite length_app, IH, Hrow. reflexivity. }
  rewrite Hlen, Nat.eqb_refl. f_equal. clear Hlen.
  induction Hrows as [| row rows Hrow Hrows IH]; [reflexivity |].
  cbn [length seq map concat]. f_equal.
  - simpl. rewrite <- Hrow, firstn_app, Nat.sub_diag, firstn_all.
    simpl. apply app_nil_r.
  - rewrite <- seq_shift, map_map. etransitivity; [| exact IH].
    apply map_ext. intro i. f_equal.
    replace (S i * c)%nat with (length row + i * c)%nat by (rewrite Hrow; lia).
    rewrite skipn_app, (skipn_all2 row) by lia.
    replace (length row + i * c - length row)%nat with (i * c)%nat by lia.
    reflexivity.
Qed.

Lemma table_nth (f : R -> R -> R) (alphas phis : list R) (i j : nat) :
  (i < length alphas)%nat -> (j < length phis)%nat ->
  nth j (nth i (map (fun a => map (f a) phis) alphas) []) 0
  = f (nth i alphas 0) (nth j phis 0).
Proof.
  intros Hi Hj.
  rewrite (nth_indep _ [] ((fun a => map (f a) phis) 0))
    by (rewrite length_map; exact Hi).
  rewrite (map_nth (fun a => map (f a) phis)).
  rewrite (nth_indep _ 0 (f (nth i alphas 0) 0))
    by (rewrite length_map; exact Hj).
  apply (map_nth (f (nth i alphas 0))).
Qed.

Lemma table_size (f : R -> R -> R) (alphas phis : list R) :
  length (concat (map (fun a => map (f a) phis) alphas))
  = (length alphas * length phis)%nat.
Proof.
  induction alphas as [| a l IH]; [reflexivity |].
  simpl. rewrite length_app, length_map, IH. reflexivity.
Qed.

Lemma ceil_between (x : R) (z : Z) :
  IZR z - 1 < x <= IZR z -> np.ceil x = z.
Proof.
  intros [Hlo Hhi]. unfold np.ceil.
  assert (Hup : ((- z) + 1)%Z = up (- x)).
  { apply up_tech; [rewrite opp_IZR; lra | rewrite plus_IZR, opp_IZR; lra]. }
  lia.
Qed.

Lemma alpha_list_length : length (driver.alpha_list driver.script_inputs) = 20%nat.
Proof.
  cbn [driver.alpha_list driver.script_inputs]. rewrite arange_length.
  rewrite (ceil_between _ 20); [reflexivity |]. lra.
Qed.

Lemma phi_ext_list_length :
  length (driver.phi_ext_list driver.script_inputs) = 30%nat.
Proof.
  cbn [driver.phi_ext_list driver.script_inputs]. rewrite arange_length.
  rewrite (ceil_between _ 30); [reflexivity |].
  pose proof PI_RGT_0 as Hpi.
  assert (Hq : (0.491 * 2 * PI - 0.2 * 2 * PI) / (0.01 * 2 * PI) = 29.1).
  { apply (Rmult_eq_reg_r (0.01 * 2 * PI)); [| lra].
    unfold Rdiv. rewrite Rmult_assoc, Rinv_l by lra. lra. }
  rewrite Hq. lra.
Qed.

(** C3: the script's sweep ends normally; its two accumulators hold, in
    loop order (alpha outer, phi_ext inner), the pair reported for every
    [(alpha, phi_ext)] of the two [arange] grids, one entry per pair; both
    have [len(alpha_list) * len(phi_ext_list)] entries; and both reshape
    to grids whose concatenated rows are the accumulators and whose entry
    in row [i], column [j] is the value for [alpha_list[i]] and
    [phi_ext_list[j]]. *)
Theorem sweep_visits_every_pair `{driver.Toolbox} :
  let inp := driver.script_inputs in
  let alphas := np.arange 0.2 0.4 0.01 in
  let phis := np.arange (0.2 * 2 * PI) (0.491 * 2 * PI) (0.01 * 2 * PI) in
  exists st cavity_kerr_grid max_kerr_grid,
    driver.sweep inp = Some st
    /\ (forall a p, driver.kerr inp a p = Some (driver.reported inp a p))
    /\ driver.cavity_kerr_list st
       = flat_map (fun a => map (fun p => fst (driver.reported inp a p)) phis)
                  alphas
    /\ driver.max_kerr_list st
       = flat_map (fun a => map (fun p => snd (driver.reported inp a p)) phis)
                  alphas
    /\ length (driver.cavity_kerr_list st) = (length alphas * length phis)%nat
    /\ length (driver.max_kerr_list st) = (length alphas * length phis)%nat
    /\ driver.grids inp = Some (cavity_kerr_grid, max_kerr_grid)
    /\ driver.reshape_dim inp = (length alphas, length phis)
    /\ concat cavity_kerr_grid = driver.cavity_kerr_list st
    /\ concat max_kerr_grid = driver.max_kerr_list st
    /\ length cavity_kerr_grid = length alphas
    /\ length max_kerr_grid = length alphas
    /\ forall i j, (i < length alphas)%nat -> (j < length phis)%nat ->
         length (nth i cavity_kerr_grid []) = length phis
         /\ length (nth i max_kerr_grid []) = length phis
         /\ driver.kerr inp (nth i alphas 0) (nth j phis 0)
            = Some (nth j (nth i cavity_kerr_grid []) 0,
                    nth j (nth i max_kerr_grid []) 0).
Proof.
  intros inp alphas phis.
  assert (Hft : (6 <= driver.fock_trunc inp)%nat) by (simpl; lia).
  set (f1 := fun a p => fst (driver.reported inp a p)).
  set (f2 := fun a p => snd (driver.reported inp a p)).
  set (rows1 := map (fun a => map (f1 a) phis) alphas).
  set (rows2 := map (fun a => map (f2 a) phis) alphas).
  assert (Hsweep : driver.sweep inp = Some (driver.State (concat rows1) (concat rows2))).
  { unfold driver.sweep. rewrite (outer_loop_appends inp Hft). reflexivity. }
  assert (Hshape : forall (f : R -> R -> R),
             Forall (fun row => length row = length phis)
                    (map (fun a => map (f a) phis) alphas)).
  { intro f. apply Forall_forall. intros row Hrow.
    apply in_map_iff in Hrow. destruct Hrow as [a [<- _]]. apply length_map. }
  assert (Hdim : driver.reshape_dim inp = (length alphas, length phis)).
  { unfold driver.reshape_dim. rewrite length_map. reflexivity. }
  assert (Hr1 : np.reshape (concat rows1) (driver.reshape_dim inp) = Some rows1).
  { rewrite Hdim. rewrite <- (length_map (fun a => map (f1 a) phis) alphas).
    apply reshape_concat, Hshape. }
  assert (Hr2 : np.reshape (concat rows2) (driver.reshape_dim inp) = Some rows2).
  { rewrite Hdim. rewrite <- (length_map (fun a => map (f2 a) phis) alphas).
    apply reshape_concat, Hshape. }
  assert (Hcount : forall (f : R -> R -> R),
             length (concat (map (fun a => map (f a) phis) alphas))
             = (length alphas * length phis)%nat).
  { intro f. apply table_size. }
  exists (driver.State (concat rows1) (concat rows2)), rows1, rows2.
  split; [exact Hsweep |].
  split; [intros a p; apply (kerr_reported inp Hft) |].
  split; [symmetry; apply flat_map_concat_map |].
  split; [symmetry; apply flat_map_concat_map |].
  split; [apply Hcount |]. split; [apply Hcount |].
  split.
  { unfold driver.grids. rewrite Hsweep.
    cbn [driver.cavity_kerr_list driver.max_kerr_list].
    rewrite Hr1, Hr2. reflexivity. }
  split; [exact Hdim |].
  split; [reflexivity |]. split; [reflexivity |].
  split; [apply length_map |]. split; [apply length_map |].
  intros i j Hi Hj.
  assert (Hrow : forall (f : R -> R -> R),
             length (nth i (map (fun a => map (f a) phis) alphas) [])
             = length phis).
  { intro f.
    rewrite (nth_indep _ [] ((fun a => map (f a) phis) 0))
      by (rewrite length_map; exact Hi).
    rewrite (map_nth (fun a => map (f a) phis)). apply length_map. }
  split; [apply Hrow |]. split; [apply Hrow |].
  unfold rows1, rows2. rewrite !table_nth by assumption.
  rewrite (kerr_reported inp Hft). unfold f1, f2.
  destruct (driver.reported inp (nth i alphas 0) (nth j phis 0)); reflexivity.
Qed.

(** ** The starting point of the minimizer *)

Lemma cos_lower (a : R) : -2 <= a <= 2 -> 1 - a * a / 2 <= cos a.
Proof.
  intros [Hlo Hhi]. destruct (pre_cos_bound a 0 Hlo Hhi) as [Hb _].
  unfold cos_approx, cos_term in Hb. simpl in Hb. lra.
Qed.

Lemma cos_upper (a : R) :
  -2 <= a <= 2 -> cos a <= 1 - a * a / 2 + a * a * a * a / 24.
Proof.
  intros [Hlo Hhi]. destruct (pre_cos_bound a 0 Hlo Hhi) as [_ Hb].
  unfold cos_approx, cos_term in Hb. simpl in Hb. lra.
Qed.

Lemma PI_between_3_and_4 : 3 < PI <= 4.
Proof. pose proof PI2_3_2. pose proof PI_4. lra. Qed.

Section start_of_minimizer.

Variable Lj : R.

(** The instance on which the starting point is examined. *)
Let self : SNAIL.t := SNAIL.mk Lj 1 0.2 0.

Lemma sample_potential (phi : R) : SNAIL.potential self phi = -1.2 * cos phi.
Proof.
  unfold SNAIL.potential, self; simpl.
  replace ((0 - phi) / 1) with (- phi) by lra.
  rewrite cos_neg. lra.
Qed.

Lemma sample_grid_point :
  In (3.5 - PI) (SNAIL.phi_array self).
Proof.
  destruct PI_between_3_and_4 as [Hlo Hhi].
  assert (Hidx : (350 < length (SNAIL.phi_array self))%nat).
  { unfold SNAIL.phi_array, self; simpl SNAIL.n.
    apply arange_length_gt. rewrite INR_IZR_INZ. simpl Z.of_nat. lra. }
  replace (3.5 - PI) with (nth 350 (SNAIL.phi_array self) 0).
  - apply nth_In, Hidx.
  - unfold SNAIL.phi_array in *. rewrite arange_nth by exact Hidx.
    unfold self; simpl SNAIL.n. rewrite INR_IZR_INZ. simpl Z.of_nat. lra.
Qed.

Lemma sample_minimum_range (m : R) :
  SNAIL.phi_min_0 self = Some m -> -1.2 <= m <= -1.05.
Proof.
  intro Hm. apply py_min_spec in Hm. destruct Hm as [Hin Hlow]. split.
  - apply in_map_iff in Hin. destruct Hin as [phi [<- _]].
    rewrite sample_potential. pose proof (COS_bound phi). lra.
  - assert (Hle : m <= SNAIL.potential self (3.5 - PI)).
    { apply Hlow, in_map, sample_grid_point. }
    rewrite sample_potential in Hle.
    destruct PI_between_3_and_4 as [Hlo Hhi].
    assert (Hc : 1 - (3.5 - PI) * (3.5 - PI) / 2 <= cos (3.5 - PI))
      by (apply cos_lower; lra).
    nra.
Qed.

Lemma sample_potential_at_minimum (m : R) :
  -1.2 <= m <= -1.05 -> m < SNAIL.potential self m.
Proof.
  intro Hm. rewrite sample_potential.
  assert (Hc : cos m <= 1 - m * m / 2 + m * m * m * m / 24)
    by (apply cos_upper; lra).
  assert (Ht : 1.1025 <= m * m <= 1.44) by nra.
  nra.
Qed.

End start_of_minimizer.

(** C1, evaluated on [SNAIL(n=1, alpha=0.2, phi_ext=0, Lj)]:
    [solve_expansion] returns what [minimize] returns from the starting
    point [phi_min_0] and the polynomial fitted at that flux, but the value
    the code binds to [phi_min_0] is the smallest sampled potential, an
    energy; it is not a flux of the grid at which the sampled potential is
    smallest.  The same holds for [SNAIL2], whose [phi_min_0] is computed
    by the same expression. *)
Theorem solve_expansion_start_is_not_a_flux `{Externals} (Lj Ej : R) :
  let self := SNAIL.mk Lj 1 0.2 0 in
  let self2 := SNAIL2.mk Ej 1 0.2 0 in
  exists m,
    SNAIL.phi_min_0 self = Some m
    /\ SNAIL2.phi_min_0 self2 = Some m
    /\ In m (map (SNAIL.potential self) (SNAIL.phi_array self))
    /\ (forall phi, In phi (SNAIL.phi_array self) ->
          m <= SNAIL.potential self phi)
    /\ (forall degree scale order phi_min E taylor,
          SNAIL.solve_expansion self degree scale order
          = Some (phi_min, E, taylor) ->
          phi_min = minimize (SNAIL.potential self) m
          /\ taylor = approximate_taylor_polynomial (SNAIL.potential self)
                        phi_min degree scale (order_or_default order degree))
    /\ (forall degree scale order norm phi_min taylor,
          SNAIL2.solve_expansion self2 degree scale order norm
          = Some (phi_min, taylor) ->
          phi_min = minimize (fun phi => SNAIL2.potential self2 phi true) m
          /\ taylor
             = np.scalar_mul (if norm then 1 else Ej)
                 (approximate_taylor_polynomial
                    (fun phi => SNAIL2.potential self2 phi true)
                    phi_min degree scale (order_or_default order degree)))
    /\ -1.2 <= m <= -1.05
    /\ m < SNAIL.potential self m
    /\ ~ grid_argmin (SNAIL.potential self) (SNAIL.phi_array self) m.
Proof.
  intros self self2.
  assert (Hne : SNAIL.phi_array self <> []).
  { unfold SNAIL.phi_array. apply phi_grid_nonempty.
    unfold self; simpl SNAIL.n. lra. }
  destruct (py_min_nonempty (map (SNAIL.potential self) (SNAIL.phi_array self)))
    as [m Hm].
  { destruct (SNAIL.phi_array self); [congruence | discriminate]. }
  assert (Hm1 : SNAIL.phi_min_0 self = Some m) by exact Hm.
  assert (Hm2 : SNAIL2.phi_min_0 self2 = Some m) by exact Hm.
  pose proof (sample_minimum_range Lj m Hm1) as Hrange.
  pose proof (sample_potential_at_minimum Lj m Hrange) as Hgt.
  destruct (py_min_spec _ _ Hm) as [Hin Hlow].
  exists m.
  split; [exact Hm1 |]. split; [exact Hm2 |]. split; [exact Hin |].
  split; [intros phi Hphi; apply Hlow, in_map, Hphi |].
  split.
  { intros degree scale order phi_min E taylor Hsolve.
    unfold SNAIL.solve_expansion in Hsolve. rewrite Hm1 in Hsolve.
    cbv zeta in Hsolve. injection Hsolve as <- _ <-. split; reflexivity. }
  split.
  { intros degree scale order norm phi_min taylor Hsolve.
    unfold SNAIL2.solve_expansion in Hsolve. rewrite Hm2 in Hsolve.
    cbv zeta in Hsolve. injection Hsolve as <- <-. split; reflexivity. }
  split; [exact Hrange |]. split; [exact Hgt |].
  intros [_ Hargmin].
  apply in_map_iff in Hin. destruct Hin as [phi [Hphi Hingrid]].
  specialize (Hargmin phi Hingrid). rewrite Hphi in Hargmin.
  apply (Rlt_irrefl m).
  eapply Rlt_le_trans; [exact Hgt | exact Hargmin].
Qed.

(** ** Reconstruction of the potential from the coefficients *)

Lemma py_sum_fold_right (l : list R) : py.sum l = fold_right Rplus 0 l.
Proof.
  unfold py.sum.
  assert (Hgen : forall a, fold_left Rplus l a = a + fold_right Rplus 0 l).
  { induction l as [| x l IH]; intro a; simpl; [lra |]. rewrite IH. lra. }
  rewrite Hgen. lra.
Qed.

Lemma py_sum_app (l1 l2 : list R) : py.sum (l1 ++ l2) = py.sum l1 + py.sum l2.
Proof.
  rewrite !py_sum_fold_right. induction l1 as [| x l1 IH]; simpl; [lra |].
  rewrite IH. lra.
Qed.

(** Horner's scheme computes the sum of the monomials. *)
Lemma horner_monomials (c : list R) (y a : R) :
  fold_left (fun acc pv => acc * y + pv) c a
  = a * y ^ length c
    + fold_right Rplus 0
        (map (fun k => nth k c 0 * y ^ (length c - 1 - k)) (seq 0 (length c))).
Proof.
  revert a. induction c as [| h t IH]; intro a.
  - simpl. lra.
  - cbn [fold_left length seq map fold_right]. rewrite IH.
    rewrite <- seq_shift, map_map.
    replace (S (length t) - 1 - 0)%nat with (length t) by lia.
    cbn [nth].
    rewrite (map_ext (fun k => nth (S k) (h :: t) 0 * y ^ (S (length t) - 1 - S k))
                     (fun k => nth k t 0 * y ^ (length t - 1 - k)))
      by (intro k; cbn [nth]; do 2 f_equal; lia).
    simpl pow. lra.
Qed.

Section reconstruction.

Variable p : np.poly.
Variable degree : nat.
Variable y : R.
Hypothesis full_order : np.len p = Z.of_nat degree.

(** The summand of the reconstruction, as the source writes it. *)
Let term (k : nat) : R :=
  np.getitem p (Z.of_nat degree - Z.of_nat k)
  * py.pow y (Z.of_nat degree - Z.of_nat k).

Lemma coeffs_length : length (np.coeffs p) = S degree.
Proof. unfold np.len, np.order in full_order. lia. Qed.

Lemma term_monomial (k : nat) :
  (k <= degree)%nat ->
  term k = nth k (np.coeffs p) 0 * y ^ (degree - k).
Proof.
  intro Hk. unfold term, py.pow, np.getitem.
  unfold np.len in full_order. rewrite full_order.
  replace (Z.of_nat degree - Z.of_nat k)%Z with (Z.of_nat (degree - k)) by lia.
  rewrite <- pow_powerRZ.
  destruct (Z.gtb_spec (Z.of_nat (degree - k)) (Z.of_nat degree)) as [Hgt | _];
    [lia |].
  destruct (Z.ltb_spec (Z.of_nat (degree - k)) 0) as [Hlt | _]; [lia |].
  replace (Z.to_nat (Z.of_nat degree - Z.of_nat (degree - k))) with k by lia.
  reflexivity.
Qed.

Lemma reconstruct_full :
  py.sum (map term (py.range (np.len p + 1 - 0))) = np.polyval p y.
Proof.
  unfold np.polyval. rewrite horner_monomials, coeffs_length.
  rewrite py_sum_fold_right. unfold np.len in *. rewrite full_order.
  unfold py.range.
  replace (Z.to_nat (Z.of_nat degree + 1 - 0)) with (S degree) by lia.
  rewrite Rmult_0_l, Rplus_0_l. f_equal.
  apply map_ext_in. intros k Hk. apply in_seq in Hk.
  rewrite term_monomial by lia. do 2 f_equal. lia.
Qed.

Lemma getitem_above_order (j : Z) :
  (Z.of_nat degree < j)%Z -> np.getitem p j = 0.
Proof.
  intro Hj. unfold np.getitem. unfold np.len in full_order. rewrite full_order.
  destruct (Z.gtb_spec j (Z.of_nat degree)); [reflexivity | lia].
Qed.

Lemma reconstruct_nonlinear :
  py.sum (map term (py.range (np.len p + 1 - 0)))
  = py.sum (map term (py.range (np.len p + 1 - 3)))
    + np.getitem p 0 + np.getitem p 1 * y + np.getitem p 2 * y ^ 2.
Proof.
  unfold py.range. rewrite full_order.
  replace (Z.to_nat (Z.of_nat degree + 1 - 0)) with (S degree) by lia.
  replace (Z.to_nat (Z.of_nat degree + 1 - 3)) with (degree - 2)%nat by lia.
  destruct (Nat.lt_ge_cases degree 2) as [Hsmall | Hbig].
  - assert (Hcases : degree = 0%nat \/ degree = 1%nat) by lia.
    rewrite (getitem_above_order 2) by lia.
    destruct Hcases as [Hd | Hd].
    + rewrite (getitem_above_order 1) by lia.
      unfold term. rewrite Hd. unfold py.sum, py.pow; simpl. lra.
    + unfold term. rewrite Hd. unfold py.sum, py.pow; simpl. lra.
  - replace (S degree) with ((degree - 2) + 3)%nat by lia.
    rewrite seq_app, map_app, py_sum_app.
    cbn [seq map Nat.add]. unfold py.sum at 2. cbn [fold_left]. unfold term.
    replace (Z.of_nat degree - Z.of_nat (degree - 2))%Z with 2%Z by lia.
    replace (Z.of_nat degree - Z.of_nat (S (degree - 2)))%Z with 1%Z by lia.
    replace (Z.of_nat degree - Z.of_nat (S (S (degree - 2))))%Z with 0%Z by lia.
    unfold py.pow; simpl powerRZ. simpl pow. lra.
Qed.

End reconstruction.

Lemma trim_zeros_nonzero (a : R) (t : list R) :
  a <> 0 -> np.trim_zeros (a :: t) = a :: t.
Proof. intro Ha. simpl. destruct (Req_dec_T a 0); [contradiction | reflexivity]. Qed.

Lemma trim_zeros_zero (t : list R) : np.trim_zeros (0 :: t) = np.trim_zeros t.
Proof. simpl. destruct (Req_dec_T 0 0); [reflexivity | congruence]. Qed.

Lemma poly1d_nonzero_head (a : R) (t : list R) :
  a <> 0 -> np.poly1d (a :: t) = np.Poly (a :: t).
Proof. intro Ha. unfold np.poly1d. rewrite trim_zeros_nonzero by exact Ha. reflexivity. Qed.


(** The same for [SNAIL.truncated_potential(norm=True)], whose summand
    carries the factor 1. *)
Lemma SNAIL_truncated_potential_reconstructs `{Externals} (self : SNAIL.t)
    (degree : nat) (scale : R) (order : option nat)
    (phi_min Ej : R) (taylor : np.poly) :
  SNAIL.solve_expansion self degree scale order = Some (phi_min, Ej, taylor) ->
  np.len taylor = Z.of_nat degree ->
  exists f g,
    SNAIL.truncated_potential self degree scale order true true false
    = Some (f, np.getitem taylor 3, np.getitem taylor 4)
    /\ SNAIL.truncated_potential self degree scale order true true true
       = Some (g, np.getitem taylor 3, np.getitem taylor 4)
    /\ (forall x, f x = np.polyval taylor (x - phi_min))
    /\ (forall x,
          f x = g x + np.getitem taylor 0
                + np.getitem taylor 1 * (x - phi_min)
                + np.getitem taylor 2 * (x - phi_min) ^ 2).
Proof.
  intros Hsolve Hfull.
  unfold SNAIL.truncated_potential. rewrite Hsolve.
  eexists _, _. split; [reflexivity |]. split; [reflexivity |].
  assert (Hone : forall (x : R) (l : list nat),
            map (fun k : nat =>
                   1 * np.getitem taylor (Z.of_nat degree - Z.of_nat k)
                   * py.pow (x - phi_min) (Z.of_nat degree - Z.of_nat k)) l
            = map (fun k : nat =>
                   np.getitem taylor (Z.of_nat degree - Z.of_nat k)
                   * py.pow (x - phi_min) (Z.of_nat degree - Z.of_nat k)) l).
  { intros x l. apply map_ext. intro k. ring. }
  split.
  - intro x. rewrite Hone.
    apply (reconstruct_full taylor degree (x - phi_min) Hfull).
  - intro x. rewrite !Hone.
    apply (reconstruct_nonlinear taylor degree (x - phi_min) Hfull).
Qed.


(** C6, evaluated on [SNAIL2(Ej=1, n=1, alpha=0.2, phi_ext=0)] with
    [degree=2, order=1]: the fit through two points has no quadratic
    coefficient, so its [poly1d] has order below [degree]; the polynomial
    takes the value -1.2 at the minimum, the returned function the value
    0: the constant term is missing from the sum. *)
Theorem truncated_potential_low_order_fit :
  let self := SNAIL2.mk 1 1 0.2 0 in
  exists phi_min taylor f a3 a4,
    @SNAIL2.solve_expansion secant_externals self 2 default_scale (Some 1%nat)
      true
    = Some (phi_min, taylor)
    /\ @SNAIL2.truncated_potential secant_externals self 2 default_scale
         (Some 1%nat) true true false
       = Some (f, a3, a4)
    /\ (np.len taylor < 2)%Z
    /\ (forall x, np.polyval taylor (x - phi_min) = f x + -1.2)
    /\ f phi_min = 0
    /\ np.polyval taylor (phi_min - phi_min) = -1.2
    /\ f phi_min <> np.polyval taylor (phi_min - phi_min).
Proof.
  intro self.
  destruct (SNAIL2_phi_min_0_defined self) as [x0 Hx0];
    [unfold self; simpl SNAIL2.n; lra |].
  set (pot := fun phi => SNAIL2.potential self phi true).
  set (v := pot 0).
  set (slope := (pot (0 + default_scale) - pot 0) / default_scale).
  assert (Hv : v = -1.2).
  { unfold v, pot, SNAIL2.potential, self; simpl.
    replace ((0 - 0) / 1) with 0 by lra. rewrite cos_0. lra. }
  assert (Hsolve : @SNAIL2.solve_expansion secant_externals self 2
                     default_scale (Some 1%nat) true
                   = Some (0, np.scalar_mul 1 (np.poly1d [0; slope; v]))).
  { unfold SNAIL2.solve_expansion. rewrite Hx0. reflexivity. }
  assert (Htaylor :
            np.scalar_mul 1 (np.poly1d [0; slope; v]) = np.Poly [1 * slope; 1 * v]
            \/ np.scalar_mul 1 (np.poly1d [0; slope; v]) = np.Poly [1 * v]).
  { destruct (Req_dec slope 0) as [Hs | Hs].
    - right.
      assert (Hfit : np.poly1d [0; slope; v] = np.Poly [v]).
      { unfold np.poly1d. rewrite trim_zeros_zero, Hs, trim_zeros_zero.
        rewrite trim_zeros_nonzero by lra. reflexivity. }
      rewrite Hfit. unfold np.scalar_mul. simpl map.
      apply poly1d_nonzero_head. lra.
    - left.
      assert (Hfit : np.poly1d [0; slope; v] = np.Poly [slope; v]).
      { unfold np.poly1d. rewrite trim_zeros_zero.
        rewrite trim_zeros_nonzero by exact Hs. reflexivity. }
      rewrite Hfit. unfold np.scalar_mul. simpl map.
      apply poly1d_nonzero_head. nra. }
  eexists 0, (np.scalar_mul 1 (np.poly1d [0; slope; v])), _, _, _.
  split; [exact Hsolve |].
  split; [unfold SNAIL2.truncated_potential; rewrite Hsolve; reflexivity |].
  cbv beta.
  destruct Htaylor as [-> | ->].
  - assert (Hf : py.sum (map (fun k : nat =>
                      np.getitem (np.Poly [1 * slope; 1 * v])
                                 (Z.of_nat 2 - Z.of_nat k)
                      * py.pow (0 - 0) (Z.of_nat 2 - Z.of_nat k))
                    (py.range (np.len (np.Poly [1 * slope; 1 * v]) + 1 - 0)))
                 = 0).
    { unfold py.sum, py.range, np.len, np.order, np.getitem; simpl. lra. }
    assert (Hp : np.polyval (np.Poly [1 * slope; 1 * v]) (0 - 0) = -1.2).
    { unfold np.polyval; simpl. lra. }
    split; [unfold np.len, np.order; simpl; lia |].
    split.
    { intro x.
      unfold np.polyval, py.sum, py.range, np.len, np.order, np.getitem; simpl.
      lra. }
    split; [exact Hf |]. split; [exact Hp |]. rewrite Hf, Hp. lra.
  - assert (Hf : py.sum (map (fun k : nat =>
                      np.getitem (np.Poly [1 * v]) (Z.of_nat 2 - Z.of_nat k)
                      * py.pow (0 - 0) (Z.of_nat 2 - Z.of_nat k))
                    (py.range (np.len (np.Poly [1 * v]) + 1 - 0)))
                 = 0).
    { unfold py.sum, py.range, np.len, np.order, np.getitem; simpl. lra. }
    assert (Hp : np.polyval (np.Poly [1 * v]) (0 - 0) = -1.2).
    { unfold np.polyval; simpl. lra. }
    split; [unfold np.len, np.order; simpl; lia |].
    split.
    { intro x.
      unfold np.polyval, py.sum, py.range, np.len, np.order, np.getitem; simpl.
      lra. }
    split; [exact Hf |]. split; [exact Hp |]. rewrite Hf, Hp. lra.
Qed.

(** X2: over the reals the script's grids have 20 values of [alpha] and
    30 values of [phi_ext]. *)
Theorem script_grid_sizes :
  length (driver.alpha_list driver.script_inputs) = 20%nat
  /\ length (driver.phi_ext_list driver.script_inputs) = 30%nat.
Proof. split; [apply alpha_list_length | apply phi_ext_list_length]. Qed.

(** ** The least period *)

Lemma cos_one_positive (c : R) : 0 < c -> cos c = 1 -> 2 * PI <= c.
Proof.
  intros Hc Hcos. destruct (Rle_lt_dec (2 * PI) c) as [Hge | Hlt]; [exact Hge |].
  exfalso.
  assert (Hsin : sin c = 0).
  { pose proof (sin2_cos2 c) as Hsc. unfold Rsqr in Hsc. rewrite Hcos in Hsc.
    assert (Hsq : sin c * sin c = 0) by lra.
    apply Rmult_integral in Hsq. destruct Hsq; assumption. }
  destruct (sin_eq_O_2PI_0 c) as [H0 | [Hpi | H2pi]]; try lra.
  rewrite Hpi, cos_PI in Hcos. lra.
Qed.

Section least_period.

Variable self : SNAIL.t.
Variable k : Z.
Hypothesis k_ge_2 : (2 <= k)%Z.
Hypothesis n_integer : SNAIL.n self = IZR k.
Variable T : R.
Hypothesis T_period :
  forall phi, SNAIL.potential self (phi + T) = SNAIL.potential self phi.

Lemma n_ge_2 : 2 <= SNAIL.n self.
Proof. rewrite n_integer. apply IZR_le. exact k_ge_2. Qed.

(** The difference over one turn of the small junction isolates the
    array branch. *)
Lemma turn_difference (phi : R) :
  SNAIL.potential self (phi + 2 * PI) - SNAIL.potential self phi
  = - SNAIL.n self
    * (cos ((SNAIL.phi_ext self - phi) / SNAIL.n self - 2 * PI / SNAIL.n self)
       - cos ((SNAIL.phi_ext self - phi) / SNAIL.n self)).
Proof.
  pose proof n_ge_2 as Hn.
  unfold SNAIL.potential; cbv zeta.
  replace (cos (phi + 2 * PI)) with (cos phi)
    by (rewrite <- (cos_period phi 1); simpl INR; f_equal; ring).
  replace ((SNAIL.phi_ext self - (phi + 2 * PI)) / SNAIL.n self)
    with ((SNAIL.phi_ext self - phi) / SNAIL.n self - 2 * PI / SNAIL.n self)
    by (field; lra).
  ring.
Qed.

Lemma array_branch_period (u : R) :
  cos (u - T / SNAIL.n self - 2 * PI / SNAIL.n self) - cos (u - T / SNAIL.n self)
  = cos (u - 2 * PI / SNAIL.n self) - cos u.
Proof.
  pose proof n_ge_2 as Hn.
  set (phi := SNAIL.phi_ext self - SNAIL.n self * u).
  assert (Hu : (SNAIL.phi_ext self - phi) / SNAIL.n self = u)
    by (unfold phi; field; lra).
  assert (Hu' : (SNAIL.phi_ext self - (phi + T)) / SNAIL.n self
                = u - T / SNAIL.n self)
    by (unfold phi; field; lra).
  pose proof (turn_difference phi) as H0.
  pose proof (turn_difference (phi + T)) as H1.
  rewrite Hu in H0. rewrite Hu' in H1.
  replace (phi + T + 2 * PI) with (phi + 2 * PI + T) in H1 by ring.
  rewrite !T_period in H1. rewrite H0 in H1.
  apply (Rmult_eq_reg_l (- SNAIL.n self)); [| lra].
  symmetry. exact H1.
Qed.

Lemma period_angle_cos : cos (T / SNAIL.n self) = 1.
Proof.
  pose proof n_ge_2 as Hn. pose proof PI_RGT_0 as Hpi.
  set (c := T / SNAIL.n self).
  set (d := 2 * PI / SNAIL.n self).
  assert (Hd : 0 < d <= PI).
  { unfold d. split.
    - apply Rdiv_lt_0_compat; lra.
    - apply (Rmult_le_reg_r (SNAIL.n self)); [lra |].
      unfold Rdiv. rewrite Rmult_assoc, Rinv_l by lra. nra. }
  assert (Ha : cos d < 1).
  { rewrite <- cos_0. apply cos_decreasing_1; lra. }
  pose proof (array_branch_period 0) as E1.
  pose proof (array_branch_period (PI / 2)) as E2.
  fold c d in E1, E2.
  replace (0 - c - d) with (- (c + d)) in E1 by ring.
  replace (0 - c) with (- c) in E1 by ring.
  replace (0 - d) with (- d) in E1 by ring.
  rewrite !cos_neg, cos_0, cos_plus in E1.
  replace (PI / 2 - c - d) with (PI / 2 - (c + d)) in E2 by ring.
  rewrite !cos_shift, cos_PI2, sin_plus in E2.
  assert (Hrot : ((cos d - 1) * (cos d - 1) + sin d * sin d) * (cos c - 1) = 0).
  { replace (((cos d - 1) * (cos d - 1) + sin d * sin d) * (cos c - 1))
      with ((cos d - 1)
              * ((cos c * cos d - sin c * sin d - cos c) - (cos d - 1))
            + sin d * ((sin c * cos d + cos c * sin d - sin c) - (sin d - 0)))
      by ring.
    rewrite E1, E2. ring. }
  apply Rmult_integral in Hrot. destruct Hrot as [Hzero | Hone]; [| lra].
  exfalso. nra.
Qed.

End least_period.

(** X3: for an integer [n >= 2], every positive period of the potential
    is at least [2 * pi * n]; together with C10, the window of
    [has_multiple_wells] is one least period wide. *)
Theorem SNAIL_potential_least_period (self : SNAIL.t) (k : Z) (T : R) :
  (2 <= k)%Z ->
  SNAIL.n self = IZR k ->
  0 < T ->
  (forall phi, SNAIL.potential self (phi + T) = SNAIL.potential self phi) ->
  2 * PI * SNAIL.n self <= T.
Proof.
  intros Hk Hn HT Hper.
  pose proof (n_ge_2 self k Hk Hn) as Hn2.
  pose proof (period_angle_cos self k Hk Hn T Hper) as Hcos.
  assert (Hc : 0 < T / SNAIL.n self) by (apply Rdiv_lt_0_compat; lra).
  pose proof (cos_one_positive _ Hc Hcos) as Hge.
  apply (Rmult_le_compat_r (SNAIL.n self)) in Hge; [| lra].
  replace (T / SNAIL.n self * SNAIL.n self) with T in Hge by (field; lra).
  exact Hge.
Qed.

(** For [n = 3] the period [6 * pi] meets the bound. *)
Lemma SNAIL_potential_least_period_witness :
  let self := SNAIL.mk 25e-9 3 0.2 1 in
  let T := 2 * PI * SNAIL.n self in
  (forall phi, SNAIL.potential self (phi + T) = SNAIL.potential self phi)
  /\ 0 < T
  /\ 2 * PI * SNAIL.n self <= T.
Proof.
  intros self T.
  assert (Hper : forall phi,
             SNAIL.potential self (phi + T) = SNAIL.potential self phi).
  { intro phi. apply (potential_shift_period self 3); [lia | reflexivity]. }
  assert (HT : 0 < T).
  { unfold T, self; simpl SNAIL.n. pose proof PI_RGT_0. lra. }
  split; [exact Hper |]. split; [exact HT |].
  apply (SNAIL_potential_least_period self 3 T);
    [lia | reflexivity | exact HT | exact Hper].
Defined.


(** * Further properties of [elements.py] *)

(** ** The flux grid and the failure of [solve_expansion] *)

Lemma arange_empty (start stop step : R) :
  (stop - start) / step <= 0 -> np.arange start stop step = [].
Proof.
  intro Hx. unfold np.arange.
  destruct (ceil_spec ((stop - start) / step)) as [Hlo _].
  assert (Hlt : IZR (np.ceil ((stop - start) / step)) < IZR 1) by lra.
  apply lt_IZR in Hlt.
  replace (Z.to_nat (np.ceil ((stop - start) / step))) with 0%nat by lia.
  reflexivity.
Qed.

Lemma arange_In (start stop step x : R) :
  In x (np.arange start stop step) <->
  exists i : nat,
    (i < length (np.arange start stop step))%nat /\ x = start + INR i * step.
Proof.
  rewrite arange_length. unfold np.arange. rewrite in_map_iff. split.
  - intros [i [<- Hi]]. apply in_seq in Hi. exists i. split; [lia | reflexivity].
  - intros [i [Hi ->]]. exists i. split; [reflexivity | apply in_seq; lia].
Qed.

(** With a positive step every item lies in [[start, stop)]. *)
Lemma arange_bounds (start stop step x : R) :
  0 < step -> In x (np.arange start stop step) -> start <= x < stop.
Proof.
  intros Hstep Hin. apply arange_In in Hin. destruct Hin as [i [Hi ->]].
  rewrite arange_length in Hi.
  destruct (ceil_spec ((stop - start) / step)) as [Hlo _].
  assert (Hi' : IZR (Z.of_nat i) <= IZR (np.ceil ((stop - start) / step)) - 1).
  { rewrite <- minus_IZR. apply IZR_le. lia. }
  rewrite <- INR_IZR_INZ in Hi'.
  assert (Hlt : INR i < (stop - start) / step) by lra.
  assert (Hpos : 0 <= INR i) by apply pos_INR.
  apply (Rmult_lt_compat_r step) in Hlt; [| exact Hstep].
  replace ((stop - start) / step * step) with (stop - start) in Hlt
    by (field; lra).
  split; [nra | lra].
Qed.

(** With a positive step every point of [[start, stop)] has an item at
    most one step below it. *)
Lemma arange_covers (start stop step x : R) :
  0 < step -> start <= x < stop ->
  exists y, In y (np.arange start stop step) /\ y <= x < y + step.
Proof.
  intros Hstep [Hlo Hhi].
  set (q := (x - start) / step).
  assert (Hq0 : 0 <= q).
  { unfold q. apply Rmult_le_pos; [lra |]. apply Rlt_le, Rinv_0_lt_compat, Hstep. }
  destruct (archimed q) as [Hup1 Hup2].
  set (i := Z.to_nat (up q - 1)).
  assert (Hupz : (1 <= up q)%Z).
  { apply le_IZR. apply Rnot_lt_le. intro Hcontra.
    assert (Hle0 : IZR (up q) <= IZR 0).
    { apply IZR_le. apply lt_IZR in Hcontra. lia. }
    lra. }
  assert (Hi : INR i = IZR (up q) - 1).
  { unfold i. rewrite INR_IZR_INZ, Z2Nat.id by lia. apply minus_IZR. }
  assert (Hqx : q * step = x - start) by (unfold q; field; lra).
  exists (start + INR i * step). split.
  - apply arange_In. exists i. split; [| reflexivity].
    apply arange_length_gt. rewrite Hi.
    apply Rle_lt_trans with q; [lra |].
    unfold q, Rdiv. apply Rmult_lt_compat_r; [apply Rinv_0_lt_compat, Hstep | lra].
  - rewrite Hi. split; nra.
Qed.

Lemma phi_grid_empty (n : R) :
  n <= 0 -> np.arange (- PI * n) (PI * n) 0.01 = [].
Proof.
  intro Hn. apply arange_empty. pose proof PI_RGT_0 as Hpi.
  replace ((PI * n - - PI * n) / 0.01) with (200 * (PI * n)) by lra.
  nra.
Qed.

Lemma phi_grid_empty_iff (n : R) :
  np.arange (- PI * n) (PI * n) 0.01 = [] <-> n <= 0.
Proof.
  split; [| apply phi_grid_empty].
  intro Hnil. destruct (Rle_lt_dec n 0) as [Hle | Hlt]; [exact Hle |].
  exfalso. revert Hnil. apply phi_grid_nonempty, Hlt.
Qed.

Lemma py_min_none_iff (l : list R) : py.min l = None <-> l = [].
Proof. destruct l; simpl; split; congruence. Qed.

Lemma SNAIL_phi_min_0_none_iff (self : SNAIL.t) :
  SNAIL.phi_min_0 self = None <-> SNAIL.n self <= 0.
Proof.
  unfold SNAIL.phi_min_0. rewrite py_min_none_iff.
  rewrite <- (phi_grid_empty_iff (SNAIL.n self)). unfold SNAIL.phi_array.
  destruct (np.arange _ _ _); simpl; split; congruence.
Qed.

Lemma SNAIL2_phi_min_0_none_iff (self : SNAIL2.t) :
  SNAIL2.phi_min_0 self = None <-> SNAIL2.n self <= 0.
Proof.
  unfold SNAIL2.phi_min_0. rewrite py_min_none_iff.
  rewrite <- (phi_grid_empty_iff (SNAIL2.n self)). unfold SNAIL2.phi_array.
  destruct (np.arange _ _ _); simpl; split; congruence.
Qed.

(** X4: without junctions in the array, [n <= 0], the flux grid is empty
    and [min] raises: [solve_expansion] and [truncated_potential] of both
    classes and [SNAIL2.inductance] raise, for every degree, scale, order
    and flags. *)
Theorem expansion_raises_without_junctions `{Externals}
    (s : SNAIL.t) (s2 : SNAIL2.t) (degree : nat) (scale : R)
    (order : option nat) (norm shift nonlinear : bool) :
  (SNAIL.n s <= 0 ->
   SNAIL.phi_array s = []
   /\ SNAIL.solve_expansion s degree scale order = None
   /\ SNAIL.truncated_potential s degree scale order norm shift nonlinear = None)
  /\ (SNAIL2.n s2 <= 0 ->
      SNAIL2.phi_array s2 = []
      /\ SNAIL2.solve_expansion s2 degree scale order norm = None
      /\ SNAIL2.truncated_potential s2 degree scale order norm shift nonlinear
         = None
      /\ SNAIL2.inductance s2 degree = None).
Proof.
  split.
  - intro Hn.
    assert (H0 : SNAIL.phi_min_0 s = None)
      by (apply SNAIL_phi_min_0_none_iff; exact Hn).
    split; [apply phi_grid_empty; exact Hn |].
    assert (H1 : SNAIL.solve_expansion s degree scale order = None)
      by (unfold SNAIL.solve_expansion; rewrite H0; reflexivity).
    split; [exact H1 |].
    unfold SNAIL.truncated_potential. rewrite H1. reflexivity.
  - intro Hn.
    assert (H0 : SNAIL2.phi_min_0 s2 = None)
      by (apply SNAIL2_phi_min_0_none_iff; exact Hn).
    split; [apply phi_grid_empty; exact Hn |].
    assert (H2 : forall d sc o nm, SNAIL2.solve_expansion s2 d sc o nm = None)
      by (intros; unfold SNAIL2.solve_expansion; rewrite H0; reflexivity).
    split; [apply H2 |]. split.
    + unfold SNAIL2.truncated_potential. rewrite H2. reflexivity.
    + unfold SNAIL2.inductance. rewrite H2. reflexivity.
Qed.

(** An array of no junction, and one of a negative number of them. *)
Lemma expansion_raises_without_junctions_witness :
  let s := SNAIL.mk 25e-9 0 0.29 1 in
  let s2 := SNAIL2.mk 90e9 (-1) 0.29 1 in
  (SNAIL.phi_array s = []
   /\ @SNAIL.solve_expansion sample_externals s 40 default_scale None = None
   /\ @SNAIL.truncated_potential sample_externals s 40 default_scale None
        true true false = None)
  /\ (SNAIL2.phi_array s2 = []
      /\ @SNAIL2.solve_expansion sample_externals s2 40 default_scale None true
         = None
      /\ @SNAIL2.truncated_potential sample_externals s2 40 default_scale None
           true true false = None
      /\ @SNAIL2.inductance sample_externals s2 40 = None).
Proof.
  intros s s2.
  destruct (@expansion_raises_without_junctions sample_externals s s2 40
              default_scale None true true false) as [H1 H2].
  split; [apply H1 | apply H2]; simpl; lra.
Defined.

(** X5: for [n > 0] the flux grid of [solve_expansion] starts at
    [- pi * n], every sample lies in [[- pi * n, pi * n)], and every flux
    of that interval has a sample at most 0.01 below it. *)
Theorem phi_array_covers_one_period (self : SNAIL.t) :
  0 < SNAIL.n self ->
  nth 0 (SNAIL.phi_array self) 0 = - PI * SNAIL.n self
  /\ (forall phi, In phi (SNAIL.phi_array self) ->
        - PI * SNAIL.n self <= phi < PI * SNAIL.n self)
  /\ (forall x, - PI * SNAIL.n self <= x < PI * SNAIL.n self ->
        exists phi, In phi (SNAIL.phi_array self) /\ phi <= x < phi + 0.01).
Proof.
  intro Hn. unfold SNAIL.phi_array. split; [| split].
  - rewrite arange_nth.
    + simpl INR. lra.
    + pose proof (phi_grid_nonempty _ Hn) as Hne.
      destruct (np.arange _ _ _); [congruence | simpl; lia].
  - intros phi Hphi. apply (arange_bounds _ _ 0.01); [lra | exact Hphi].
  - intros x Hx. apply arange_covers; [lra | exact Hx].
Qed.

(** The script's three-junction element. *)
Lemma phi_array_covers_one_period_witness :
  let self := SNAIL.mk 25e-9 3 0.2 1 in
  nth 0 (SNAIL.phi_array self) 0 = - PI * SNAIL.n self
  /\ (forall phi, In phi (SNAIL.phi_array self) ->
        - PI * SNAIL.n self <= phi < PI * SNAIL.n self)
  /\ (forall x, - PI * SNAIL.n self <= x < PI * SNAIL.n self ->
        exists phi, In phi (SNAIL.phi_array self) /\ phi <= x < phi + 0.01).
Proof.
  apply (phi_array_covers_one_period (SNAIL.mk 25e-9 3 0.2 1)).
  simpl. lra.
Defined.

(** ** Bounds *)

Lemma Rabs_cos_le_1 (x : R) : Rabs (cos x) <= 1.
Proof. apply Rabs_le. pose proof (COS_bound x). lra. Qed.

Lemma Rabs_sin_le_1 (x : R) : Rabs (sin x) <= 1.
Proof. apply Rabs_le. pose proof (SIN_bound x). lra. Qed.

Lemma Rabs_scaled_le (a c : R) : Rabs c <= 1 -> Rabs (a * c) <= Rabs a.
Proof.
  intro Hc. rewrite Rabs_mult. pose proof (Rabs_pos a).
  replace (Rabs a) with (Rabs a * 1) at 2 by ring.
  apply Rmult_le_compat_l; assumption.
Qed.

Lemma potential_abs_bound (self : SNAIL.t) (phi : R) :
  Rabs (SNAIL.potential self phi) <= Rabs (SNAIL.alpha self) + Rabs (SNAIL.n self).
Proof.
  unfold SNAIL.potential; cbv zeta.
  eapply Rle_trans; [apply Rabs_triang |].
  apply Rplus_le_compat.
  - rewrite <- (Rabs_Ropp (SNAIL.alpha self)).
    apply Rabs_scaled_le, Rabs_cos_le_1.
  - rewrite <- (Rabs_Ropp (SNAIL.n self)).
    apply Rabs_scaled_le, Rabs_cos_le_1.
Qed.

(** X6: the potential of every [SNAIL] stays within
    [+- (|alpha| + |n|)] and its derivative within [+- (|alpha| + 1)],
    at every flux. *)
Theorem SNAIL_potential_bounded (self : SNAIL.t) (phi : R) :
  Rabs (SNAIL.potential self phi) <= Rabs (SNAIL.alpha self) + Rabs (SNAIL.n self)
  /\ Rabs (SNAIL.potential_derivative self phi) <= Rabs (SNAIL.alpha self) + 1.
Proof.
  split; [apply potential_abs_bound |].
  unfold SNAIL.potential_derivative; cbv zeta.
  eapply Rle_trans; [apply Rabs_triang |].
  apply Rplus_le_compat.
  - apply Rabs_scaled_le, Rabs_sin_le_1.
  - rewrite Rabs_Ropp. apply Rabs_sin_le_1.
Qed.

(** X7: for [n > 0] the starting point that [solve_expansion] hands to
    [minimize] is the smallest sampled potential: the potential of some
    flux of the grid, a lower bound of the potential on the whole grid,
    and therefore a number in [[-(|alpha| + |n|), potential(- pi * n)]],
    whatever the fluxes are. *)
Theorem SNAIL_starting_point_is_least_sample (self : SNAIL.t) :
  0 < SNAIL.n self ->
  exists m phi,
    SNAIL.phi_min_0 self = Some m
    /\ In phi (SNAIL.phi_array self)
    /\ SNAIL.potential self phi = m
    /\ (forall y, In y (SNAIL.phi_array self) -> m <= SNAIL.potential self y)
    /\ - (Rabs (SNAIL.alpha self) + Rabs (SNAIL.n self)) <= m
       <= SNAIL.potential self (- PI * SNAIL.n self).
Proof.
  intro Hn.
  pose proof (phi_grid_nonempty _ Hn) as Hne.
  fold (SNAIL.phi_array self) in Hne.
  destruct (py_min_nonempty (map (SNAIL.potential self) (SNAIL.phi_array self)))
    as [m Hm].
  { destruct (SNAIL.phi_array self); [congruence | discriminate]. }
  destruct (py_min_spec _ _ Hm) as [Hin Hlow].
  apply in_map_iff in Hin. destruct Hin as [phi [Hphi Hgrid]].
  exists m, phi.
  split; [exact Hm |]. split; [exact Hgrid |]. split; [exact Hphi |].
  split; [intros y Hy; apply Hlow, in_map, Hy |].
  split.
  - rewrite <- Hphi.
    pose proof (potential_abs_bound self phi) as Hb.
    pose proof (Rle_abs (- SNAIL.potential self phi)) as Hneg.
    rewrite Rabs_Ropp in Hneg. lra.
  - apply Hlow, in_map.
    destruct (SNAIL.phi_array self) as [| x t] eqn:Hgrid0; [congruence |].
    assert (Hx : x = - PI * SNAIL.n self).
    { change x with (nth 0 (x :: t) 0). rewrite <- Hgrid0.
      unfold SNAIL.phi_array. rewrite arange_nth.
      - simpl INR. lra.
      - fold (SNAIL.phi_array self). rewrite Hgrid0. simpl. lia. }
    rewrite <- Hx. left; reflexivity.
Qed.

Lemma SNAIL_starting_point_is_least_sample_witness :
  let self := SNAIL.mk 25e-9 3 0.2 1 in
  exists m phi,
    SNAIL.phi_min_0 self = Some m
    /\ In phi (SNAIL.phi_array self)
    /\ SNAIL.potential self phi = m
    /\ (forall y, In y (SNAIL.phi_array self) -> m <= SNAIL.potential self y)
    /\ - (Rabs (SNAIL.alpha self) + Rabs (SNAIL.n self)) <= m
       <= SNAIL.potential self (- PI * SNAIL.n self).
Proof.
  apply (SNAIL_starting_point_is_least_sample (SNAIL.mk 25e-9 3 0.2 1)).
  simpl. lra.
Defined.

(** ** [SNAIL2]: derivative, periods and symmetries *)

(** X9: [SNAIL2.potential_derivative(phi, norm)] is the derivative of
    [SNAIL2.potential(phi, norm)] at every flux, for both values of
    [norm]. *)
Theorem SNAIL2_potential_derivative_correct (self : SNAIL2.t) (phi : R)
    (norm : bool) :
  derivable_pt_lim (fun x => SNAIL2.potential self x norm) phi
                   (SNAIL2.potential_derivative self phi norm).
Proof.
  set (s := SNAIL.mk 0 (SNAIL2.n self) (SNAIL2.alpha self) (SNAIL2.phi_ext self)).
  assert (Hsum : derivable_pt_lim
            (fun x => - SNAIL2.alpha self * cos x
                      + - SNAIL2.n self
                        * cos ((SNAIL2.phi_ext self - x) / SNAIL2.n self))
            phi
            (SNAIL2.alpha self * sin phi
             + - sin ((SNAIL2.phi_ext self - phi) / SNAIL2.n self))).
  { apply (derivable_pt_lim_plus
             (fun x => - SNAIL2.alpha self * cos x)
             (fun x => - SNAIL2.n self
                       * cos ((SNAIL2.phi_ext self - x) / SNAIL2.n self))).
    - apply (branch1_derivative s).
    - apply (branch2_derivative s). }
  unfold SNAIL2.potential, SNAIL2.potential_derivative; cbv zeta.
  destruct norm.
  - rewrite Rmult_1_l. exact Hsum.
  - apply (derivable_pt_lim_scal _ (SNAIL2.Ej self)) in Hsum. exact Hsum.
Qed.

Lemma sin_plus_2PI_Z (x : R) (k : Z) : sin (x + 2 * PI * IZR k) = sin x.
Proof.
  destruct (Z.le_gt_cases 0 k) as [Hk | Hk].
  - rewrite <- (Z2Nat.id k Hk), <- INR_IZR_INZ.
    rewrite <- (sin_period x (Z.to_nat k)). f_equal. ring.
  - assert (Hk' : (0 <= - k)%Z) by lia.
    rewrite <- (sin_period (x + 2 * PI * IZR k) (Z.to_nat (- k))).
    rewrite INR_IZR_INZ, (Z2Nat.id _ Hk'), opp_IZR. f_equal. ring.
Qed.

Lemma derivative_shift_period (self : SNAIL.t) (k : Z) (phi : R) :
  (k <> 0)%Z ->
  SNAIL.n self = IZR k ->
  SNAIL.potential_derivative self (phi + 2 * PI * SNAIL.n self)
  = SNAIL.potential_derivative self phi.
Proof.
  intros Hk Hn. unfold SNAIL.potential_derivative; cbv zeta. rewrite Hn.
  assert (Hk0 : IZR k <> 0) by (apply not_0_IZR; exact Hk).
  rewrite sin_plus_2PI_Z.
  replace ((SNAIL.phi_ext self - (phi + 2 * PI * IZR k)) / IZR k)
    with ((SNAIL.phi_ext self - phi) / IZR k + 2 * PI * IZR (-1))
    by (field; exact Hk0).
  rewrite sin_plus_2PI_Z. reflexivity.
Qed.

(** X10: for a non-zero integer [n], the function whose roots
    [has_multiple_wells] counts, [potential_derivative], has period
    [2 * pi * n], the width of the window; and so have
    [SNAIL2.potential] and [SNAIL2.potential_derivative] for both values
    of [norm]. *)
Theorem derivative_periodic (s : SNAIL.t) (s2 : SNAIL2.t) (k : Z) :
  (k <> 0)%Z ->
  SNAIL.n s = IZR k ->
  SNAIL2.n s2 = IZR k ->
  (forall phi,
      SNAIL.potential_derivative s (phi + 2 * PI * SNAIL.n s)
      = SNAIL.potential_derivative s phi)
  /\ (forall phi norm,
        SNAIL2.potential s2 (phi + 2 * PI * SNAIL2.n s2) norm
        = SNAIL2.potential s2 phi norm)
  /\ (forall phi norm,
        SNAIL2.potential_derivative s2 (phi + 2 * PI * SNAIL2.n s2) norm
        = SNAIL2.potential_derivative s2 phi norm)
  /\ snd (SNAIL.wells_window s) - fst (SNAIL.wells_window s)
     = 2 * PI * SNAIL.n s
  /\ snd (SNAIL2.wells_window s2) - fst (SNAIL2.wells_window s2)
     = 2 * PI * SNAIL2.n s2.
Proof.
  intros Hk Hn Hn2.
  set (t := SNAIL.mk 0 (SNAIL2.n s2) (SNAIL2.alpha s2) (SNAIL2.phi_ext s2)).
  assert (Hp : forall phi,
             SNAIL.potential t (phi + 2 * PI * SNAIL2.n s2) = SNAIL.potential t phi).
  { intro phi. apply (potential_shift_period t k phi Hk Hn2). }
  assert (Hd : forall phi,
             SNAIL.potential_derivative t (phi + 2 * PI * SNAIL2.n s2)
             = SNAIL.potential_derivative t phi).
  { intro phi. apply (derivative_shift_period t k phi Hk Hn2). }
  split; [intro phi; apply (derivative_shift_period s k phi Hk Hn) |].
  split.
  { intros phi norm. specialize (Hp phi).
    unfold SNAIL.potential in Hp; cbv zeta in Hp; simpl in Hp.
    unfold SNAIL2.potential; cbv zeta. destruct norm; [exact Hp |].
    f_equal. exact Hp. }
  split.
  { intros phi norm. specialize (Hd phi).
    unfold SNAIL.potential_derivative in Hd; cbv zeta in Hd; simpl in Hd.
    unfold SNAIL2.potential_derivative; cbv zeta. f_equal. exact Hd. }
  unfold SNAIL.wells_window, SNAIL2.wells_window; simpl. split; ring.
Qed.

(** Three junctions in both classes. *)
Lemma derivative_periodic_witness :
  let s := SNAIL.mk 25e-9 3 0.2 1 in
  let s2 := SNAIL2.mk 90e9 3 0.2 1 in
  (forall phi,
      SNAIL.potential_derivative s (phi + 2 * PI * SNAIL.n s)
      = SNAIL.potential_derivative s phi)
  /\ (forall phi norm,
        SNAIL2.potential s2 (phi + 2 * PI * SNAIL2.n s2) norm
        = SNAIL2.potential s2 phi norm)
  /\ (forall phi norm,
        SNAIL2.potential_derivative s2 (phi + 2 * PI * SNAIL2.n s2) norm
        = SNAIL2.potential_derivative s2 phi norm)
  /\ snd (SNAIL.wells_window s) - fst (SNAIL.wells_window s)
     = 2 * PI * SNAIL.n s
  /\ snd (SNAIL2.wells_window s2) - fst (SNAIL2.wells_window s2)
     = 2 * PI * SNAIL2.n s2.
Proof.
  apply (derivative_periodic (SNAIL.mk 25e-9 3 0.2 1) (SNAIL2.mk 90e9 3 0.2 1) 3).
  - lia.
  - reflexivity.
  - reflexivity.
Defined.

(** X11: the external flux enters the potential only modulo
    [2 * pi * n] (any real [n <> 0]), and reversing the external flux
    mirrors the potential: [V(-phi_ext; -phi) = V(phi_ext; phi)], with the
    derivative changing sign. *)
Theorem potential_external_flux_symmetries (Lj n alpha phi_ext phi : R) :
  n <> 0 ->
  SNAIL.potential (SNAIL.mk Lj n alpha (phi_ext + 2 * PI * n)) phi
  = SNAIL.potential (SNAIL.mk Lj n alpha phi_ext) phi
  /\ SNAIL.potential_derivative (SNAIL.mk Lj n alpha (phi_ext + 2 * PI * n)) phi
     = SNAIL.potential_derivative (SNAIL.mk Lj n alpha phi_ext) phi
  /\ SNAIL.potential (SNAIL.mk Lj n alpha (- phi_ext)) (- phi)
     = SNAIL.potential (SNAIL.mk Lj n alpha phi_ext) phi
  /\ SNAIL.potential_derivative (SNAIL.mk Lj n alpha (- phi_ext)) (- phi)
     = - SNAIL.potential_derivative (SNAIL.mk Lj n alpha phi_ext) phi.
Proof.
  intro Hn.
  unfold SNAIL.potential, SNAIL.potential_derivative; simpl.
  replace ((phi_ext + 2 * PI * n - phi) / n)
    with ((phi_ext - phi) / n + 2 * PI * IZR 1) by (field; exact Hn).
  rewrite cos_plus_2PI_Z, sin_plus_2PI_Z.
  replace ((- phi_ext - - phi) / n) with (- ((phi_ext - phi) / n))
    by (field; exact Hn).
  rewrite !cos_neg, !sin_neg.
  repeat split; ring.
Qed.

(** The script's element at its first external flux. *)
Lemma potential_external_flux_symmetries_witness :
  let V := fun phi_ext => SNAIL.potential (SNAIL.mk 25e-9 3 0.2 phi_ext) in
  let V' := fun phi_ext =>
              SNAIL.potential_derivative (SNAIL.mk 25e-9 3 0.2 phi_ext) in
  V (1 + 2 * PI * 3) 0.5 = V 1 0.5
  /\ V' (1 + 2 * PI * 3) 0.5 = V' 1 0.5
  /\ V (- (1)) (- (0.5)) = V 1 0.5
  /\ V' (- (1)) (- (0.5)) = - V' 1 0.5.
Proof.
  apply (potential_external_flux_symmetries 25e-9 3 0.2 1 0.5). lra.
Defined.

(** ** What [truncated_potential] sums, in general *)





Lemma trim_zeros_length (c : list R) :
  (length (np.trim_zeros c) <= length c)%nat.
Proof.
  induction c as [| a t IH]; simpl; [lia |].
  destruct (Req_dec_T a 0); simpl; lia.
Qed.

Lemma poly1d_order_bound (c : list R) :
  (0 <= np.len (np.poly1d c) <= Z.of_nat (length c) - 1)%Z
  \/ (c = [] /\ np.len (np.poly1d c) = 0%Z).
Proof.
  unfold np.len, np.order, np.poly1d.
  pose proof (trim_zeros_length c) as Hlen.
  destruct (np.trim_zeros c) as [| a t] eqn:Htrim; simpl np.coeffs.
  - destruct c as [| b c']; [right; split; reflexivity |].
    left. simpl length in *. lia.
  - left. simpl length in *. lia.
Qed.

Lemma scalar_mul_order_bound (a : R) (p : np.poly) :
  (0 <= np.len p)%Z -> (0 <= np.len (np.scalar_mul a p) <= np.len p)%Z.
Proof.
  intro Hp. unfold np.scalar_mul.
  destruct (poly1d_order_bound (map (fun c => a * c) (np.coeffs p)))
    as [Hb | [_ Hz]].
  - rewrite length_map in Hb. unfold np.len, np.order in *. lia.
  - rewrite Hz. lia.
Qed.

Lemma fit_order_bound `{Externals} (f : R -> R) (x : R) (degree : nat)
    (scale : R) (order : nat) :
  (0 <= np.len (approximate_taylor_polynomial f x degree scale order)
   <= Z.of_nat degree)%Z.
Proof.
  unfold approximate_taylor_polynomial.
  destruct (poly1d_order_bound (taylor_coefficients f x degree scale order))
    as [Hb | [Hnil _]].
  - rewrite taylor_coefficients_length in Hb. lia.
  - pose proof (taylor_coefficients_length f x degree scale order) as Hlen.
    rewrite Hnil in Hlen. discriminate.
Qed.

Section truncated_sum.

Variable p : np.poly.
Variable degree : nat.
Variable y : R.
Variable limit : Z.
Hypothesis order_bound : (0 <= np.len p <= Z.of_nat degree)%Z.
Hypothesis limit_cases : limit = 0%Z \/ limit = 3%Z.

Let T (j : nat) : R := np.getitem p (Z.of_nat j) * y ^ j.





End truncated_sum.







(** ** [norm=False] against [norm=True] in [SNAIL2] *)






(** * Further properties of [optimize_parameters_coupling.py] *)

(** ** The Kerr values for any truncation *)

Lemma transit_energies_map_seq (g : nat -> R) (a n : nat) :
  driver.transit_energies (map g (seq a n))
  = map (fun i => g (S i) - g i) (seq a (n - 1)).
Proof.
  revert a. induction n as [| [| n] IH]; intro a; [reflexivity | reflexivity |].
  change (map g (seq a (S (S n))))
    with (g a :: g (S a) :: map g (seq (S (S a)) n)).
  rewrite transit_energies_cons.
  change (g (S a) :: map g (seq (S (S a)) n)) with (map g (seq (S a) (S n))).
  rewrite IH. simpl. rewrite Nat.sub_0_r. reflexivity.
Qed.

Lemma anharm_map_seq (r : nat -> R) (n : nat) :
  driver.anharm (map r (seq 0 n))
  = map (fun i => (r (S (S i)) - r (S i)) - (r (S i) - r i)) (seq 0 (n - 2)).
Proof.
  unfold driver.anharm; cbv zeta.
  change (np.sub (np.from1 (driver.transit_energies (map r (seq 0 n))))
                 (np.to_last (driver.transit_energies (map r (seq 0 n)))))
    with (driver.transit_energies (driver.transit_energies (map r (seq 0 n)))).
  rewrite transit_energies_map_seq.
  rewrite (transit_energies_map_seq (fun i => r (S i) - r i)).
  f_equal. f_equal. lia.
Qed.


Lemma relative_evals_map_seq (e : nat -> complex) (n : nat) :
  driver.relative_evals (map e (seq 0 n))
  = if (n =? 0)%nat then None
    else Some (map (fun i => re (Csub (e i) (e 0%nat)) / 1e6) (seq 0 n)).
Proof.
  destruct n as [| n]; [reflexivity |].
  change (map e (seq 0 (S n))) with (e 0%nat :: map e (seq 1 n)).
  unfold driver.relative_evals. simpl Nat.eqb. cbv iota. f_equal.
  change (e 0%nat :: map e (seq 1 n)) with (map e (seq 0 (S n))).
  apply map_map.
Qed.

Section kerr_facts.

Context `{driver.Toolbox}.
Variable inp : driver.inputs.
Variables alpha phi_ext : R.

Lemma cavity_evals_seq :
  driver.cavity_evals inp alpha phi_ext
  = map (level inp alpha phi_ext) (seq 0 (levels_read inp)).
Proof.
  unfold driver.cavity_evals, py.range, levels_read.
  replace (Z.to_nat (Z.of_nat (driver.fock_trunc inp) - 3))
    with (driver.fock_trunc inp - 3)%nat by lia.
  reflexivity.
Qed.

(** One iteration in closed form. *)
Lemma kerr_closed_form :
  driver.kerr inp alpha phi_ext
  = if (levels_read inp =? 0)%nat then None
    else match np.max (np.abs (second_differences inp alpha phi_ext)) with
         | None => None
         | Some m =>
             Some (1000 * np.average (second_differences inp alpha phi_ext),
                   1000 * m)
         end.
Proof.
  unfold driver.kerr. rewrite cavity_evals_seq, relative_evals_map_seq.
  destruct (levels_read inp =? 0)%nat; [reflexivity |].
  cbv zeta. rewrite anharm_map_seq. reflexivity.
Qed.

Lemma second_differences_length :
  length (second_differences inp alpha phi_ext) = (levels_read inp - 2)%nat.
Proof. unfold second_differences. rewrite length_map, length_seq. reflexivity. Qed.

Lemma kerr_none_iff :
  driver.kerr inp alpha phi_ext = None <-> (driver.fock_trunc inp < 6)%nat.
Proof.
  rewrite kerr_closed_form. pose proof second_differences_length as Hlen.
  unfold levels_read in *.
  destruct (Nat.eqb_spec (driver.fock_trunc inp - 3) 0) as [HN | HN].
  - split; [intros _; lia | reflexivity].
  - destruct (second_differences inp alpha phi_ext) as [| x t].
    + simpl in Hlen. simpl. split; [intros _; lia | reflexivity].
    + simpl np.max. simpl in Hlen. split; [discriminate | intro Hft; lia].
Qed.


End kerr_facts.



(** ** When the sweep raises *)

Section sweep_failure.

Context `{driver.Toolbox}.
Variable inp : driver.inputs.
Hypothesis few_levels : (driver.fock_trunc inp < 6)%nat.

Lemma body_raises (alpha phi_ext : R) (st : driver.state) :
  driver.body inp alpha phi_ext st = None.
Proof.
  unfold driver.body.
  replace (driver.kerr inp alpha phi_ext) with (@None (R * R));
    [reflexivity |].
  symmetry. apply kerr_none_iff. exact few_levels.
Qed.

Lemma inner_loop_raises (alpha : R) (phis : list R) (st : driver.state) :
  driver.inner_loop inp alpha phis st
  = match phis with [] => Some st | _ => None end.
Proof. destruct phis; simpl; [| rewrite body_raises]; reflexivity. Qed.

Lemma outer_loop_raises (alphas : list R) (st : driver.state) :
  driver.outer_loop inp alphas st
  = match alphas, driver.phi_ext_list inp with
    | [], _ | _, [] => Some st
    | _, _ => None
    end.
Proof.
  induction alphas as [| a alphas IH]; [reflexivity |].
  simpl. rewrite inner_loop_raises.
  destruct (driver.phi_ext_list inp); [| reflexivity].
  rewrite IH. destruct alphas; reflexivity.
Qed.

End sweep_failure.

Section sweep_success.

Context `{driver.Toolbox}.
Variable inp : driver.inputs.
Hypothesis enough_levels : (6 <= driver.fock_trunc inp)%nat.

Lemma sweep_rows :
  driver.sweep inp
  = Some (driver.State
            (concat (map (fun a => map (fun p => fst (driver.reported inp a p))
                                       (driver.phi_ext_list inp))
                         (driver.alpha_list inp)))
            (concat (map (fun a => map (fun p => snd (driver.reported inp a p))
                                       (driver.phi_ext_list inp))
                         (driver.alpha_list inp)))).
Proof. unfold driver.sweep. rewrite (outer_loop_appends inp enough_levels). reflexivity. Qed.

Lemma reshape_table (f : R -> R -> R) :
  np.reshape
    (concat (map (fun a => map (f a) (driver.phi_ext_list inp))
                 (driver.alpha_list inp)))
    (driver.reshape_dim inp)
  = Some (map (fun a => map (f a) (driver.phi_ext_list inp))
              (driver.alpha_list inp)).
Proof.
  unfold driver.reshape_dim. rewrite length_map.
  rewrite <- (length_map (fun a => map (f a) (driver.phi_ext_list inp))
                         (driver.alpha_list inp)).
  apply reshape_concat. apply Forall_forall. intros row Hrow.
  apply in_map_iff in Hrow. destruct Hrow as [a [<- _]]. apply length_map.
Qed.

Lemma grids_rows :
  driver.grids inp
  = Some (map (fun a => map (fun p => fst (driver.reported inp a p))
                            (driver.phi_ext_list inp))
              (driver.alpha_list inp),
          map (fun a => map (fun p => snd (driver.reported inp a p))
                            (driver.phi_ext_list inp))
              (driver.alpha_list inp)).
Proof.
  unfold driver.grids. rewrite sweep_rows.
  cbn [driver.cavity_kerr_list driver.max_kerr_list].
  rewrite (reshape_table (fun a p => fst (driver.reported inp a p))).
  rewrite (reshape_table (fun a p => snd (driver.reported inp a p))).
  reflexivity.
Qed.

End sweep_success.

(** X16: one iteration raises exactly when [fock_trunc < 6] (no level to
    subtract, or no second difference to take the maximum of); the sweep,
    and the reshaping after it, raise exactly when moreover both grids are
    non-empty; with too few levels and an empty grid the script ends with
    two empty lists. *)
Theorem sweep_raises_iff `{driver.Toolbox} (inp : driver.inputs) :
  (forall alpha phi_ext,
      driver.kerr inp alpha phi_ext = None <-> (driver.fock_trunc inp < 6)%nat)
  /\ (driver.sweep inp = None
      <-> (driver.fock_trunc inp < 6)%nat
          /\ driver.alpha_list inp <> [] /\ driver.phi_ext_list inp <> [])
  /\ (driver.grids inp = None <-> driver.sweep inp = None)
  /\ ((driver.fock_trunc inp < 6)%nat ->
      driver.alpha_list inp = [] \/ driver.phi_ext_list inp = [] ->
      driver.sweep inp = Some (driver.State [] [])).
Proof.
  assert (Hsweep : driver.sweep inp = None
                   <-> (driver.fock_trunc inp < 6)%nat
                       /\ driver.alpha_list inp <> []
                       /\ driver.phi_ext_list inp <> []).
  { destruct (Nat.lt_ge_cases (driver.fock_trunc inp) 6) as [Hlt | Hge].
    - unfold driver.sweep. rewrite (outer_loop_raises inp Hlt).
      destruct (driver.alpha_list inp) as [| a l];
        destruct (driver.phi_ext_list inp) as [| q l']; split;
        first [ discriminate
              | intros [_ [Ha Hp]]; congruence
              | intros _; repeat split; [exact Hlt | discriminate | discriminate]
              | reflexivity ].
    - unfold driver.sweep. rewrite (outer_loop_appends inp Hge).
      split; [discriminate | intros [Hlt _]; lia]. }
  split; [intros alpha phi_ext; apply kerr_none_iff |].
  split; [exact Hsweep |].
  split.
  - split.
    + intro Hg. destruct (driver.sweep inp) as [st |] eqn:Hst; [| reflexivity].
      exfalso.
      destruct (Nat.lt_ge_cases (driver.fock_trunc inp) 6) as [Hlt | Hge].
      * unfold driver.sweep in Hst. rewrite (outer_loop_raises inp Hlt) in Hst.
        unfold driver.grids, driver.sweep in Hg.
        rewrite (outer_loop_raises inp Hlt) in Hg.
        unfold driver.reshape_dim in Hg. rewrite length_map in Hg.
        destruct (driver.alpha_list inp) as [| a l];
          destruct (driver.phi_ext_list inp) as [| q l'];
          simpl in Hg; try discriminate.
        rewrite Nat.mul_0_r in Hg. simpl in Hg. discriminate.
      * rewrite (grids_rows inp Hge) in Hg. discriminate.
    + intro Hst. unfold driver.grids. rewrite Hst. reflexivity.
  - intros Hlt Hempty. unfold driver.sweep.
    rewrite (outer_loop_raises inp Hlt).
    destruct Hempty as [-> | ->]; [reflexivity |].
    destruct (driver.alpha_list inp); reflexivity.
Qed.

(** X17: for any inputs with [fock_trunc >= 6], empty grids included, the
    sweep and the reshaping return; the accumulators list the reported
    pairs in loop order, and entry [(i, j)] of each grid is the value for
    [alpha_list[i]] and [phi_ext_list[j]]. *)
Theorem sweep_any_grids `{driver.Toolbox} (inp : driver.inputs) :
  (6 <= driver.fock_trunc inp)%nat ->
  let alphas := driver.alpha_list inp in
  let phis := driver.phi_ext_list inp in
  exists st cavity_kerr_grid max_kerr_grid,
    driver.sweep inp = Some st
    /\ driver.grids inp = Some (cavity_kerr_grid, max_kerr_grid)
    /\ driver.cavity_kerr_list st
       = flat_map (fun a => map (fun p => fst (driver.reported inp a p)) phis)
                  alphas
    /\ driver.max_kerr_list st
       = flat_map (fun a => map (fun p => snd (driver.reported inp a p)) phis)
                  alphas
    /\ length (driver.cavity_kerr_list st) = (length alphas * length phis)%nat
    /\ length (driver.max_kerr_list st) = (length alphas * length phis)%nat
    /\ concat cavity_kerr_grid = driver.cavity_kerr_list st
    /\ concat max_kerr_grid = driver.max_kerr_list st
    /\ forall i j, (i < length alphas)%nat -> (j < length phis)%nat ->
         driver.kerr inp (nth i alphas 0) (nth j phis 0)
         = Some (nth j (nth i cavity_kerr_grid []) 0,
                 nth j (nth i max_kerr_grid []) 0).
Proof.
  intros Hft alphas phis.
  eexists _, _, _.
  split; [apply (sweep_rows inp Hft) |].
  split; [apply (grids_rows inp Hft) |].
  cbn [driver.cavity_kerr_list driver.max_kerr_list].
  split; [symmetry; apply flat_map_concat_map |].
  split; [symmetry; apply flat_map_concat_map |].
  split; [apply (table_size (fun a p => fst (driver.reported inp a p))) |].
  split; [apply (table_size (fun a p => snd (driver.reported inp a p))) |].
  split; [reflexivity |]. split; [reflexivity |].
  intros i j Hi Hj. subst alphas phis.
  rewrite (table_nth (fun a p => fst (driver.reported inp a p))) by assumption.
  rewrite (table_nth (fun a p => snd (driver.reported inp a p))) by assumption.
  rewrite (kerr_reported inp Hft).
  destruct (driver.reported inp (nth i (driver.alpha_list inp) 0)
                                (nth j (driver.phi_ext_list inp) 0));
    reflexivity.
Qed.

(** Two alphas and one flux over the levels of a Kerr oscillator. *)
Lemma sweep_any_grids_witness :
  let T := kerr_oscillator_toolbox 5e9 (-2000) in
  exists st cavity_kerr_grid max_kerr_grid,
    @driver.sweep T small_inputs = Some st
    /\ @driver.grids T small_inputs = Some (cavity_kerr_grid, max_kerr_grid)
    /\ driver.cavity_kerr_list st
       = flat_map (fun a => map (fun p => fst (@driver.reported T small_inputs a p))
                                [1.3])
                  [0.2; 0.3]
    /\ driver.max_kerr_list st
       = flat_map (fun a => map (fun p => snd (@driver.reported T small_inputs a p))
                                [1.3])
                  [0.2; 0.3]
    /\ length (driver.cavity_kerr_list st) = (2 * 1)%nat
    /\ length (driver.max_kerr_list st) = (2 * 1)%nat
    /\ concat cavity_kerr_grid = driver.cavity_kerr_list st
    /\ concat max_kerr_grid = driver.max_kerr_list st
    /\ forall i j, (i < 2)%nat -> (j < 1)%nat ->
         @driver.kerr T small_inputs (nth i [0.2; 0.3] 0) (nth j [1.3] 0)
         = Some (nth j (nth i cavity_kerr_grid []) 0,
                 nth j (nth i max_kerr_grid []) 0).
Proof.
  apply (@sweep_any_grids (kerr_oscillator_toolbox 5e9 (-2000)) small_inputs).
  simpl. lia.
Defined.

(** ** What the Kerr values see of the spectrum *)

Lemma map_const_repeat {A : Type} (c : R) (l : list A) :
  map (fun _ => c) l = repeat c (length l).
Proof. induction l as [| x l IH]; simpl; [reflexivity | rewrite IH; reflexivity]. Qed.

Lemma sum_repeat (c : R) (k : nat) : fold_right Rplus 0 (repeat c k) = INR k * c.
Proof.
  induction k as [| k IH]; [simpl; ring |].
  cbn [repeat fold_right]. rewrite IH, S_INR. ring.
Qed.

Lemma average_repeat (c : R) (k : nat) : np.average (repeat c (S k)) = c.
Proof.
  unfold np.average. rewrite sum_repeat, repeat_length.
  field. apply not_0_INR. discriminate.
Qed.

Lemma fold_Rmax_repeat (c : R) (k : nat) : fold_left Rmax (repeat c k) c = c.
Proof.
  induction k as [| k IH]; simpl; [reflexivity |].
  rewrite Rmax_left by lra. exact IH.
Qed.

Lemma max_abs_repeat (c : R) (k : nat) :
  np.max (np.abs (repeat c (S k))) = Some (Rabs c).
Proof.
  unfold np.abs. rewrite map_repeat. simpl. f_equal. apply fold_Rmax_repeat.
Qed.

Section spectrum_facts.

Context `{driver.Toolbox}.
Variable inp : driver.inputs.
Variables alpha phi_ext : R.
Hypothesis enough_levels : (6 <= driver.fock_trunc inp)%nat.

(** Second differences that are all equal to [c]. *)
Lemma kerr_of_constant_curvature (c : R) :
  (forall i, (i < levels_read inp - 2)%nat ->
     (relative_level inp alpha phi_ext (S (S i))
      - relative_level inp alpha phi_ext (S i))
     - (relative_level inp alpha phi_ext (S i)
        - relative_level inp alpha phi_ext i) = c) ->
  driver.kerr inp alpha phi_ext = Some (1000 * c, 1000 * Rabs c).
Proof.
  intro Hc.
  assert (Hd2 : second_differences inp alpha phi_ext
                = repeat c (S (levels_read inp - 3))).
  { unfold second_differences.
    rewrite (map_ext_in _ (fun _ => c)).
    - rewrite map_const_repeat, length_seq. f_equal.
      unfold levels_read. lia.
    - intros i Hi. apply in_seq in Hi. apply Hc. lia. }
  rewrite kerr_closed_form, Hd2.
  replace (levels_read inp =? 0)%nat with false
    by (symmetry; apply Nat.eqb_neq; unfold levels_read; lia).
  rewrite max_abs_repeat, average_repeat. reflexivity.
Qed.

End spectrum_facts.

(** X20: an iteration that reports [max_kerr = 0] reports [avg_kerr = 0]
    as well, and its transit energies, the differences of consecutive
    relative levels, are all equal. *)
Theorem max_kerr_zero_equal_transit_energies `{driver.Toolbox}
    (inp : driver.inputs) (alpha phi_ext avg_kerr : R) :
  driver.kerr inp alpha phi_ext = Some (avg_kerr, 0) ->
  avg_kerr = 0
  /\ forall i, (S i < levels_read inp)%nat ->
       relative_level inp alpha phi_ext (S i)
       - relative_level inp alpha phi_ext i
       = relative_level inp alpha phi_ext 1
         - relative_level inp alpha phi_ext 0.
Proof.
  intro Hk. rewrite kerr_closed_form in Hk.
  destruct (levels_read inp =? 0)%nat; [discriminate |].
  destruct (np.max (np.abs (second_differences inp alpha phi_ext)))
    as [m |] eqn:Hm; [| discriminate].
  injection Hk as Havg Hm0.
  assert (Hm00 : m = 0) by lra.
  split.
  { destruct (max_abs_bounds_average _ _ Hm) as [_ Hb].
    rewrite Hm00 in Hb.
    pose proof (Rabs_pos (np.average (second_differences inp alpha phi_ext)))
      as Hpos.
    assert (Ha : Rabs (np.average (second_differences inp alpha phi_ext)) = 0)
      by lra.
    destruct (Req_dec (np.average (second_differences inp alpha phi_ext)) 0)
      as [Hz | Hnz].
    - rewrite Hz in Havg. lra.
    - exfalso. revert Ha. apply Rabs_no_R0. exact Hnz. }
  destruct (np_max_spec _ _ Hm) as [_ Hub].
  assert (Hflat : forall i, (i < levels_read inp - 2)%nat ->
             relative_level inp alpha phi_ext (S (S i))
             - relative_level inp alpha phi_ext (S i)
             = relative_level inp alpha phi_ext (S i)
               - relative_level inp alpha phi_ext i).
  { intros i Hi.
    set (d := (relative_level inp alpha phi_ext (S (S i))
               - relative_level inp alpha phi_ext (S i))
              - (relative_level inp alpha phi_ext (S i)
                 - relative_level inp alpha phi_ext i)).
    assert (Hin : In (Rabs d) (np.abs (second_differences inp alpha phi_ext))).
    { unfold np.abs. apply in_map. unfold second_differences.
      apply (in_map (fun i =>
               (relative_level inp alpha phi_ext (S (S i))
                - relative_level inp alpha phi_ext (S i))
               - (relative_level inp alpha phi_ext (S i)
                  - relative_level inp alpha phi_ext i))
               (seq 0 (levels_read inp - 2)) i).
      apply in_seq. lia. }
    specialize (Hub _ Hin). rewrite Hm00 in Hub.
    pose proof (Rabs_pos d) as Hpos.
    assert (Hd : Rabs d = 0) by lra.
    destruct (Req_dec d 0) as [Hd0 | Hd0].
    - unfold d in Hd0. lra.
    - exfalso. revert Hd. apply Rabs_no_R0. exact Hd0. }
  induction i as [| i IH]; intro Hi; [reflexivity |].
  rewrite Hflat by lia. apply IH. lia.
Qed.

(** Levels spaced by 5 MHz, whose relative levels are [0, 5, 10, ...]. *)
Lemma max_kerr_zero_equal_transit_energies_witness :
  let r := @relative_level (harmonic_toolbox 5e6) small_inputs 0.2 1.3 in
  @driver.kerr (harmonic_toolbox 5e6) small_inputs 0.2 1.3 = Some (0, 0)
  /\ forall i, (S i < levels_read small_inputs)%nat ->
       r (S i) - r i = r 1%nat - r 0%nat.
Proof.
  intro r.
  assert (Hk : @driver.kerr (harmonic_toolbox 5e6) small_inputs 0.2 1.3
               = Some (0, 0)).
  { rewrite (@kerr_of_constant_curvature (harmonic_toolbox 5e6) small_inputs
               0.2 1.3 ltac:(simpl; lia) 0).
    - rewrite Rabs_R0. f_equal. f_equal; ring.
    - intros i Hi. unfold relative_level, level, harmonic_toolbox, Csub.
      cbn [driver.get_eigenstate re im]. rewrite !S_INR. lra. }
  split; [exact Hk |].
  apply (@max_kerr_zero_equal_transit_energies (harmonic_toolbox 5e6)
           small_inputs 0.2 1.3 0 Hk).
Defined.


(** * How well the grid samples the minimum *)

Lemma potential_derivable (self : SNAIL.t) (phi : R) :
  derivable_pt_lim (SNAIL.potential self) phi
                   (SNAIL.potential_derivative self phi).
Proof.
  unfold SNAIL.potential, SNAIL.potential_derivative; cbv zeta.
  apply (derivable_pt_lim_plus
           (fun x => - SNAIL.alpha self * cos x)
           (fun x => - SNAIL.n self
                     * cos ((SNAIL.phi_ext self - x) / SNAIL.n self))).
  - apply branch1_derivative.
  - apply branch2_derivative.
Qed.

Lemma derivative_abs_bound (self : SNAIL.t) (phi : R) :
  Rabs (SNAIL.potential_derivative self phi) <= Rabs (SNAIL.alpha self) + 1.
Proof.
  unfold SNAIL.potential_derivative; cbv zeta.
  eapply Rle_trans; [apply Rabs_triang |].
  apply Rplus_le_compat.
  - apply Rabs_scaled_le, Rabs_sin_le_1.
  - rewrite Rabs_Ropp. apply Rabs_sin_le_1.
Qed.

(** The potential changes by at most [|alpha| + 1] per unit of flux. *)
Lemma potential_lipschitz (self : SNAIL.t) (x y : R) :
  Rabs (SNAIL.potential self y - SNAIL.potential self x)
  <= (Rabs (SNAIL.alpha self) + 1) * Rabs (y - x).
Proof.
  destruct (MVT_abs (SNAIL.potential self) (SNAIL.potential_derivative self) x y)
    as [c [Hc _]].
  - intros c _. apply potential_derivable.
  - rewrite Hc. apply Rmult_le_compat_r; [apply Rabs_pos |].
    apply derivative_abs_bound.
Qed.

Lemma potential_shift_periods (self : SNAIL.t) (k j : Z) (phi : R) :
  (k <> 0)%Z ->
  SNAIL.n self = IZR k ->
  SNAIL.potential self (phi + IZR j * (2 * PI * SNAIL.n self))
  = SNAIL.potential self phi.
Proof.
  intros Hk Hn. unfold SNAIL.potential; cbv zeta. rewrite Hn.
  assert (Hk0 : IZR k <> 0) by (apply not_0_IZR; exact Hk).
  replace (phi + IZR j * (2 * PI * IZR k)) with (phi + 2 * PI * IZR (j * k))
    by (rewrite mult_IZR; ring).
  rewrite cos_plus_2PI_Z.
  replace ((SNAIL.phi_ext self - (phi + 2 * PI * IZR (j * k))) / IZR k)
    with ((SNAIL.phi_ext self - phi) / IZR k + 2 * PI * IZR (- j))
    by (rewrite mult_IZR, opp_IZR; field; exact Hk0).
  rewrite cos_plus_2PI_Z. reflexivity.
Qed.

(** Every flux has a translate by whole periods in [[- pi n, pi n)]. *)
Lemma reduce_to_period (n x : R) :
  0 < n ->
  exists j : Z,
    - PI * n <= x + IZR j * (2 * PI * n) < PI * n.
Proof.
  intro Hn. pose proof PI_RGT_0 as Hpi.
  assert (Hp : 0 < 2 * PI * n) by nra.
  destruct (euclidian_division (x + PI * n) (2 * PI * n)) as [q [r [Hx Hr]]];
    [lra |].
  rewrite (Rabs_right (2 * PI * n)) in Hr by lra.
  exists (- q)%Z. rewrite opp_IZR.
  replace (x + - IZR q * (2 * PI * n)) with (r - PI * n) by lra.
  lra.
Qed.

(** X21: for [n > 0] the smallest sampled potential [m] (the value bound
    to [phi_min_0]) is attained on the grid and lies at most
    [0.01 * (|alpha| + 1)] above the potential at any flux of
    [[- pi n, pi n)]; for an integer [n] the same holds at every real
    flux, so [m] is within [0.01 * (|alpha| + 1)] of the global minimum
    of the potential. *)
Theorem sampled_minimum_accuracy (self : SNAIL.t) :
  0 < SNAIL.n self ->
  exists m phi,
    SNAIL.phi_min_0 self = Some m
    /\ In phi (SNAIL.phi_array self)
    /\ SNAIL.potential self phi = m
    /\ (forall x, - PI * SNAIL.n self <= x < PI * SNAIL.n self ->
          m - 0.01 * (Rabs (SNAIL.alpha self) + 1) <= SNAIL.potential self x)
    /\ (forall k : Z, SNAIL.n self = IZR k ->
          forall x, m - 0.01 * (Rabs (SNAIL.alpha self) + 1)
                    <= SNAIL.potential self x).
Proof.
  intro Hn.
  pose proof (phi_grid_nonempty _ Hn) as Hne.
  fold (SNAIL.phi_array self) in Hne.
  destruct (py_min_nonempty (map (SNAIL.potential self) (SNAIL.phi_array self)))
    as [m Hm].
  { destruct (SNAIL.phi_array self); [congruence | discriminate]. }
  destruct (py_min_spec _ _ Hm) as [Hin Hlow].
  apply in_map_iff in Hin. destruct Hin as [phi [Hphi Hgrid]].
  assert (Hinterval :
            forall x, - PI * SNAIL.n self <= x < PI * SNAIL.n self ->
              m - 0.01 * (Rabs (SNAIL.alpha self) + 1)
              <= SNAIL.potential self x).
  { intros x Hx.
    destruct (arange_covers (- PI * SNAIL.n self) (PI * SNAIL.n self) 0.01 x)
      as [y [Hy Hxy]]; [lra | exact Hx |].
    fold (SNAIL.phi_array self) in Hy.
    assert (Hmy : m <= SNAIL.potential self y) by (apply Hlow, in_map, Hy).
    pose proof (potential_lipschitz self y x) as Hlip.
    rewrite (Rabs_right (x - y)) in Hlip by lra.
    pose proof (Rle_abs (- (SNAIL.potential self x - SNAIL.potential self y)))
      as Hneg.
    rewrite Rabs_Ropp in Hneg.
    pose proof (Rabs_pos (SNAIL.alpha self)) as Ha.
    assert (Hstep : (Rabs (SNAIL.alpha self) + 1) * (x - y)
                    <= (Rabs (SNAIL.alpha self) + 1) * 0.01)
      by (apply Rmult_le_compat_l; lra).
    lra. }
  exists m, phi.
  split; [exact Hm |]. split; [exact Hgrid |]. split; [exact Hphi |].
  split; [exact Hinterval |].
  intros k Hk x.
  assert (Hk0 : (k <> 0)%Z).
  { intro Hz. rewrite Hz in Hk. lra. }
  destruct (reduce_to_period (SNAIL.n self) x Hn) as [j Hj].
  rewrite <- (potential_shift_periods self k j x Hk0 Hk).
  apply Hinterval, Hj.
Qed.

(** The script's element. *)
Lemma sampled_minimum_accuracy_witness :
  let self := SNAIL.mk 25e-9 3 0.2 1 in
  exists m phi,
    SNAIL.phi_min_0 self = Some m
    /\ In phi (SNAIL.phi_array self)
    /\ SNAIL.potential self phi = m
    /\ (forall x, - PI * SNAIL.n self <= x < PI * SNAIL.n self ->
          m - 0.01 * (Rabs (SNAIL.alpha self) + 1) <= SNAIL.potential self x)
    /\ (forall k : Z, SNAIL.n self = IZR k ->
          forall x, m - 0.01 * (Rabs (SNAIL.alpha self) + 1)
                    <= SNAIL.potential self x).
Proof.
  apply (sampled_minimum_accuracy (SNAIL.mk 25e-9 3 0.2 1)).
  simpl. lra.
Defined.

(** * The inductance of [SNAIL2] *)

Lemma getitem_above_len (p : np.poly) (k : Z) :
  (np.len p < k)%Z -> np.getitem p k = 0.
Proof.
  intro Hk. unfold np.getitem. change (np.order p) with (np.len p).
  destruct (Z.gtb_spec k (np.len p)); [reflexivity | lia].
Qed.

Lemma inductance_of_expansion `{Externals} (self : SNAIL2.t) (degree : nat)
    (phi_min : R) (expansion : np.poly) :
  SNAIL2.solve_expansion self degree default_scale None false
  = Some (phi_min, expansion) ->
  SNAIL2.inductance self degree
  = Some (np.multiply
            (np.true_divide (1 / 2) (2 * PI * hbar * np.getitem expansion 2))
            ((flux_quantum / 2 / PI) ^ 2)).
Proof. intro Hsolve. unfold SNAIL2.inductance. rewrite Hsolve. reflexivity. Qed.

(** C4: for [n > 0], [SNAIL2.inductance(degree)] fits the potential at the
    flux [phi_min] that the minimizer returns when started from the least
    sampled value [phi_min_0]; [a2] is the coefficient of order 2 of the
    expansion returned by [solve_expansion(degree, norm=False)], every
    coefficient of which is [Ej] times the coefficient of the fitted
    polynomial; where [2 pi hbar a2] is not zero the method returns
    [(flux_quantum / (2 pi)) ^ 2 / (2 * 2 pi * hbar * a2)], where it is
    zero the quotient is [inf] or [nan], and that is the case for every
    degree below 2. *)
Theorem SNAIL2_inductance_formula `{Externals} (self : SNAIL2.t) (degree : nat) :
  0 < SNAIL2.n self ->
  exists phi_min_0,
    SNAIL2.phi_min_0 self = Some phi_min_0
    /\ let phi_min :=
         minimize (fun phi => SNAIL2.potential self phi true) phi_min_0 in
       let fit := approximate_taylor_polynomial
                    (fun phi => SNAIL2.potential self phi true)
                    phi_min degree default_scale (degree + 10) in
       let expansion := np.scalar_mul (SNAIL2.Ej self) fit in
       let a2 := np.getitem expansion 2 in
       SNAIL2.solve_expansion self degree default_scale None false
       = Some (phi_min, expansion)
       /\ (forall k, np.getitem expansion k = SNAIL2.Ej self * np.getitem fit k)
       /\ (2 * PI * hbar * a2 <> 0 ->
           SNAIL2.inductance self degree
           = Some (np.finite ((flux_quantum / (2 * PI)) ^ 2
                              / (2 * (2 * PI) * hbar * a2))))
       /\ (2 * PI * hbar * a2 = 0 ->
           SNAIL2.inductance self degree = Some np.non_finite)
       /\ ((degree < 2)%nat -> a2 = 0).
Proof.
  intro Hn. destruct (SNAIL2_phi_min_0_defined self Hn) as [x0 Hx0].
  exists x0. split; [exact Hx0 |]. cbv zeta.
  set (phi_min := minimize (fun phi => SNAIL2.potential self phi true) x0).
  set (fit := approximate_taylor_polynomial
                (fun phi => SNAIL2.potential self phi true)
                phi_min degree default_scale (degree + 10)).
  set (expansion := np.scalar_mul (SNAIL2.Ej self) fit).
  assert (Hsolve :
    SNAIL2.solve_expansion self degree default_scale None false
    = Some (phi_min, expansion)).
  { unfold SNAIL2.solve_expansion. rewrite Hx0. reflexivity. }
  split; [exact Hsolve |]. split.
  { intro k. apply getitem_scalar_mul. }
  rewrite (inductance_of_expansion self degree phi_min expansion Hsolve).
  unfold np.true_divide, np.multiply.
  split; [| split].
  - intro Hdiv.
    destruct (Req_dec_T (2 * PI * hbar * np.getitem expansion 2) 0)
      as [Hz | _]; [contradiction |].
    do 2 f_equal. unfold Rdiv. simpl pow. rewrite !Rinv_mult. ring.
  - intro Hdiv.
    destruct (Req_dec_T (2 * PI * hbar * np.getitem expansion 2) 0)
      as [_ | Hnz]; [reflexivity | contradiction].
  - intro Hdeg. apply getitem_above_len.
    pose proof (fit_order_bound (fun phi => SNAIL2.potential self phi true)
                  phi_min degree default_scale (degree + 10)) as Hfit.
    pose proof (scalar_mul_order_bound (SNAIL2.Ej self) fit) as Hmul.
    fold fit in Hfit. fold expansion in Hmul. lia.
Qed.

(** A three-junction element of 90 GHz with the sample library, whose fit
    has [a2 = 1]: the expansion has [a2 = 90e9]. *)
Lemma SNAIL2_inductance_formula_witness :
  let self := SNAIL2.mk 90e9 3 0.29 (0.41 * 2 * PI) in
  exists phi_min_0,
    SNAIL2.phi_min_0 self = Some phi_min_0
    /\ @SNAIL2.inductance sample_externals self 40
       = Some (np.finite ((@flux_quantum sample_externals / (2 * PI)) ^ 2
                          / (2 * (2 * PI) * @hbar sample_externals * 90e9))).
Proof.
  intro self.
  destruct (@SNAIL2_inductance_formula sample_externals self 40
              ltac:(simpl; lra))
    as [x0 [Hx0 [_ [Hk [Hfinite _]]]]].
  exists x0. split; [exact Hx0 |].
  assert (Ha2 :
    np.getitem
      (np.scalar_mul (SNAIL2.Ej self)
         (@approximate_taylor_polynomial sample_externals
            (fun phi => SNAIL2.potential self phi true)
            (@minimize sample_externals
               (fun phi => SNAIL2.potential self phi true) x0)
            40 default_scale (40 + 10))) 2
    = 90e9).
  { rewrite Hk. unfold approximate_taylor_polynomial.
    rewrite getitem_poly1d.
    replace (np.coefficient (@taylor_coefficients sample_externals
               (fun phi => SNAIL2.potential self phi true)
               (@minimize sample_externals
                  (fun phi => SNAIL2.potential self phi true) x0)
               40 default_scale (40 + 10)) 2)
      with 1 by reflexivity.
    simpl. lra. }
  rewrite Ha2 in Hfinite. apply Hfinite.
  pose proof PI_RGT_0 as Hpi. simpl. nra.
Defined.
